(** * ddl_json: the DDL line parser and the tree compactor

    A shallow embedding of [ddl_parser.js] (function [schemaTableColumn] and
    the state machine [parseDDL]) and of [compressObj.js] (function
    [compressObj]), followed by the properties established about them.

    Conventions of the embedding.
    - A JavaScript string is a [string]; a character is a code unit below 256.
    - [undefined] in a position that holds a string is [None].
    - A JavaScript object is the list of its own enumerable properties in
      [Object.keys] order. Objects made by an object literal inherit from
      [Object.prototype]: reading a property that is not an own property
      gives the inherited member when there is one ([constructor],
      [toString], ...), and the property named [__proto__] is an accessor,
      so an assignment [o["__proto__"] = v] creates no own property.
    - The table objects are shared between [currentTable], [tableLookup] and
      [jsonResult]: they live in a store and are referred to by index.
    - An exception is the left summand of the result of a computation. The
      code runs in sloppy mode (it assigns to the undeclared [line]). *)

From Stdlib Require Import String Ascii List Bool Arith NArith Lia Sorted.
From stdpp Require Import base option list gmap strings.
Import ListNotations.

Local Open Scope string_scope.
Local Open Scope list_scope.
Local Open Scope nat_scope.

(* ================================================================== *)
(** ** JavaScript strings *)
(* ================================================================== *)

Definition code (c : ascii) : nat := nat_of_ascii c.

(** [WhiteSpace] and [LineTerminator] code units below 256: what [\s] matches
    and what [String.prototype.trim] removes. *)
Definition is_space (c : ascii) : bool :=
  let n := code c in
  (n =? 9) || (n =? 10) || (n =? 11) || (n =? 12) || (n =? 13)
  || (n =? 32) || (n =? 160).

Definition is_line_terminator (c : ascii) : bool :=
  let n := code c in (n =? 10) || (n =? 13).

(** [\w] is [[A-Za-z0-9_]]. *)
Definition is_word (c : ascii) : bool :=
  let n := code c in
  ((48 <=? n) && (n <=? 57)) || ((65 <=? n) && (n <=? 90))
  || ((97 <=? n) && (n <=? 122)) || (n =? 95).

(** Canonicalisation under the [i] flag. The patterns of the parser contain
    ASCII characters only, and a code unit above 127 never canonicalises to an
    ASCII one, so folding [a-z] is enough. *)
Definition upcase (c : ascii) : ascii :=
  let n := code c in
  if (97 <=? n) && (n <=? 122) then ascii_of_nat (n - 32) else c.

Fixpoint sdrop (n : nat) (s : string) : string :=
  match n, s with
  | 0, _ => s
  | S n', String _ r => sdrop n' r
  | S _, EmptyString => EmptyString
  end.

Definition startsWith (s p : string) : bool := String.prefix p s.

Fixpoint trimStart (s : string) : string :=
  match s with
  | String c r => if is_space c then trimStart r else s
  | EmptyString => EmptyString
  end.

Fixpoint trimEnd (s : string) : string :=
  match s with
  | String c r =>
      match trimEnd r with
      | EmptyString => if is_space c then EmptyString else String c EmptyString
      | r' => String c r'
      end
  | EmptyString => EmptyString
  end.

Definition trim (s : string) : string := trimEnd (trimStart s).

(** [s.split(sep)] for a non-empty separator: [skip] counts the characters of
    a separator occurrence still to be passed over, [cur] is the piece being
    collected. *)
Fixpoint split_from (sep : string) (skip : nat) (cur s : string) : list string :=
  match s with
  | EmptyString => [cur]
  | String c r =>
      match skip with
      | S k => split_from sep k cur r
      | 0 =>
          if String.prefix sep s
          then cur :: split_from sep (String.length sep - 1) EmptyString r
          else split_from sep 0 (cur +:+ String c EmptyString) r
      end
  end.

Definition split (sep s : string) : list string := split_from sep 0 EmptyString s.

(** [s.replace(pat, rep)] with a string pattern: the first occurrence only. *)
Fixpoint replace (pat rep s : string) : string :=
  if String.prefix pat s then rep +:+ sdrop (String.length pat) s
  else match s with
       | String c r => String c (replace pat rep r)
       | EmptyString => EmptyString
       end.

(** Truthiness of a value that is a string or [undefined], and [a || b]. *)
Definition truthy (a : option string) : bool :=
  match a with
  | Some s => negb (String.eqb s EmptyString)
  | None => false
  end.

Definition or_else (a : option string) (b : string) : string :=
  match a with
  | Some s => if String.eqb s EmptyString then b else s
  | None => b
  end.

(* ================================================================== *)
(** ** Regular expressions *)
(* ================================================================== *)

(** The fragment of the regular-expression language that the parser uses,
    with the backtracking semantics of the language: alternatives left to
    right, greedy and lazy repetition, numbered capture groups. *)

Inductive atom : Type :=
| AWord                 (* \w *)
| ASpace                (* \s *)
| ADot                  (* .  *)
| ALit (c : ascii).

Inductive regex : Type :=
| Eps
| OneOf (items : list atom)           (* a character class or one character *)
| Cat (r1 r2 : regex)
| Alt (r1 r2 : regex)
| Star (greedy : bool) (r : regex)    (* r* and r*? *)
| Group (n : nat) (r : regex)
| Bol                                 (* ^ *)
| Eol.                                (* $ *)

Definition Plus (r : regex) : regex := Cat r (Star true r).
Definition Opt (r : regex) : regex := Alt r Eps.

Fixpoint Lit (s : string) : regex :=
  match s with
  | EmptyString => Eps
  | String c EmptyString => OneOf [ALit c]
  | String c r => Cat (OneOf [ALit c]) (Lit r)
  end.

Definition atom_matches (icase : bool) (a : atom) (ch : ascii) : bool :=
  match a with
  | AWord => is_word ch
  | ASpace => is_space ch
  | ADot => negb (is_line_terminator ch)
  | ALit p => if icase then Ascii.eqb (upcase p) (upcase ch) else Ascii.eqb p ch
  end.

(** Captures: the most recent binding of a group number comes first. *)
Definition captures : Type := list (nat * string).

Fixpoint capture (n : nat) (c : captures) : option string :=
  match c with
  | [] => None
  | (k, s) :: r => if k =? n then Some s else capture n r
  end.

Section Matcher.
Context {A : Type}.
Variable icase : bool.
Variable inp : string.

(** The repetition of [body] from index [i]: a greedy one tries another
    iteration before the continuation [k], a lazy one after it. An iteration
    that consumes nothing is rejected, as in the language. Every iteration
    consumes a character, so [fuel] above the number of characters left
    never runs out. *)
Fixpoint repeat_from (greedy : bool)
         (body : nat -> captures -> (nat -> captures -> option A) -> option A)
         (k : nat -> captures -> option A)
         (fuel : nat) (i : nat) (c : captures) {struct fuel} : option A :=
  match fuel with
  | 0 => k i c
  | S f =>
      let again (_ : unit) :=
        body i c (fun j c' => if i <? j then repeat_from greedy body k f j c'
                              else None) in
      if greedy then
        match again tt with
        | Some x => Some x
        | None => k i c
        end
      else
        match k i c with
        | Some x => Some x
        | None => again tt
        end
  end.

(** [matcher r i c k]: match [r] at index [i] of [inp] with captures [c],
    then continue with [k]; [None] is failure, which makes the caller try
    its next alternative. *)
Fixpoint matcher (r : regex) (i : nat) (c : captures)
         (k : nat -> captures -> option A) {struct r} : option A :=
  match r with
  | Eps => k i c
  | OneOf items =>
      match String.get i inp with
      | Some ch =>
          if existsb (fun a => atom_matches icase a ch) items
          then k (S i) c else None
      | None => None
      end
  | Cat r1 r2 => matcher r1 i c (fun j c' => matcher r2 j c' k)
  | Alt r1 r2 =>
      match matcher r1 i c k with
      | Some x => Some x
      | None => matcher r2 i c k
      end
  | Star greedy r' =>
      repeat_from greedy (matcher r') k (S (String.length inp - i)) i c
  | Group n r' =>
      matcher r' i c
        (fun j c' => k j ((n, String.substring i (j - i) inp) :: c'))
  | Bol => if i =? 0 then k i c else None
  | Eol => if i =? String.length inp then k i c else None
  end.
End Matcher.

(** The result of [s.match(r)] for a regular expression without the [g]
    flag: start and end index of the leftmost match, and its captures. *)
Record match_result : Type := MatchResult {
  m_start : nat;
  m_end : nat;
  m_caps : captures
}.

Fixpoint exec_from (icase : bool) (r : regex) (inp : string)
         (fuel : nat) (i : nat) : option match_result :=
  match matcher icase inp r i [] (fun j c => Some (MatchResult i j c)) with
  | Some m => Some m
  | None =>
      match fuel with
      | 0 => None
      | S f => exec_from icase r inp f (S i)
      end
  end.

Definition exec (icase : bool) (r : regex) (inp : string) : option match_result :=
  exec_from icase r inp (String.length inp) 0.

(** [m[n]] for [n >= 1]. *)
Definition group (n : nat) (m : match_result) : option string := capture n (m_caps m).

(** The groups that every match of a pattern binds. *)
Fixpoint binds (r : regex) (n : nat) : bool :=
  match r with
  | Group k r' => (k =? n) || binds r' n
  | Cat r1 r2 => binds r1 n || binds r2 n
  | Alt r1 r2 => binds r1 n && binds r2 n
  | _ => false
  end.

(** Captures only grow along a match. *)
Definition extends (c c' : captures) : Prop :=
  forall n, capture n c <> None -> capture n c' <> None.

(** [s.replace(r, rep)] with a regular expression without the [g] flag. *)
Definition replace_regex (icase : bool) (r : regex) (rep s : string) : string :=
  match exec icase r s with
  | Some m => String.substring 0 (m_start m) s +:+ rep +:+ sdrop (m_end m) s
  | None => s
  end.

(* ================================================================== *)
(** ** The parser: patterns *)
(* ================================================================== *)

Definition ws : regex := OneOf [ASpace].          (* \s *)
Definition wd : regex := OneOf [AWord].           (* \w *)
Definition chr (c : ascii) : regex := OneOf [ALit c].

Declare Scope regex_scope.
Delimit Scope regex_scope with re.
Bind Scope regex_scope with regex.
Infix ">>" := Cat (at level 61, left associativity) : regex_scope.
Local Open Scope regex_scope.

(** [\w+\.\w+] and [[\w, ]+] *)
Definition dotted2 : regex := Plus wd >> chr "." >> Plus wd.
Definition column_list : regex := Plus (OneOf [AWord; ALit ","; ALit " "]).

(** [/^\s*CREATE\s+SCHEMA\s+(\w+)/i] *)
Definition schemaRegex : regex :=
  Bol >> Star true ws >> Lit "CREATE" >> Plus ws >> Lit "SCHEMA" >> Plus ws
  >> Group 1 (Plus wd).

(** [/^\s*CREATE\s+SEQUENCE\s+(\w+\.\w+)/i] *)
Definition sequenceRegex : regex :=
  Bol >> Star true ws >> Lit "CREATE" >> Plus ws >> Lit "SEQUENCE" >> Plus ws
  >> Group 1 dotted2.

(** [/^\s*CREATE\s+TABLE\s+(\w+\.\w+)/i] *)
Definition tableRegex : regex :=
  Bol >> Star true ws >> Lit "CREATE" >> Plus ws >> Lit "TABLE" >> Plus ws
  >> Group 1 dotted2.

(** [/^\s*(\w+)\s+([\w\(\),\.\'\:]+)(.*?)(\s+NOT NULL|\s+NULL)?,/i] *)
Definition columnRegex : regex :=
  Bol >> Star true ws >> Group 1 (Plus wd) >> Plus ws
  >> Group 2 (Plus (OneOf [AWord; ALit "("; ALit ")"; ALit ","; ALit ".";
                           ALit "'"; ALit ":"]))
  >> Group 3 (Star false (OneOf [ADot]))
  >> Opt (Group 4 (Alt (Plus ws >> Lit "NOT NULL") (Plus ws >> Lit "NULL")))
  >> chr ",".

(** [/^\s*CONSTRAINT\s+(\w+)\s+PRIMARY\s+KEY\s+\(([\w, ]+)\)/i] *)
Definition primaryKeyRegex : regex :=
  Bol >> Star true ws >> Lit "CONSTRAINT" >> Plus ws >> Group 1 (Plus wd)
  >> Plus ws >> Lit "PRIMARY" >> Plus ws >> Lit "KEY" >> Plus ws
  >> chr "(" >> Group 2 column_list >> chr ")".

(** [/^\s*CONSTRAINT\s+(\w+)\s+FOREIGN\s+KEY\s*\(([\w, ]+)\)G/i], where [G] is
    a third group holding a greedy repetition of [.] *)
Definition foreignKeyRegex : regex :=
  Bol >> Star true ws >> Lit "CONSTRAINT" >> Plus ws >> Group 1 (Plus wd)
  >> Plus ws >> Lit "FOREIGN" >> Plus ws >> Lit "KEY" >> Star true ws
  >> chr "(" >> Group 2 column_list >> chr ")"
  >> Group 3 (Star true (OneOf [ADot])).

(** [/^\s*CREATE\s+(UNIQUE )?INDEX\s+(\w+)\s+ON\s+(\w+\.\w+)/i] *)
Definition indexRegex : regex :=
  Bol >> Star true ws >> Lit "CREATE" >> Plus ws
  >> Opt (Group 1 (Lit "UNIQUE ")) >> Lit "INDEX" >> Plus ws
  >> Group 2 (Plus wd) >> Plus ws >> Lit "ON" >> Plus ws >> Group 3 dotted2.

(** [/^\s*COMMENT\s+ON\s+COLUMN\s+(\w+\.\w+\.\w+)\s+IS\s+'(.+)'/i] *)
Definition commentRegex : regex :=
  Bol >> Star true ws >> Lit "COMMENT" >> Plus ws >> Lit "ON" >> Plus ws
  >> Lit "COLUMN" >> Plus ws
  >> Group 1 (Plus wd >> chr "." >> Plus wd >> chr "." >> Plus wd)
  >> Plus ws >> Lit "IS" >> Plus ws >> chr "'"
  >> Group 2 (Plus (OneOf [ADot])) >> chr "'".

(** [/NOT\s+NULL/] and [/,$/], both without the [i] flag *)
Definition notNullRegex : regex := Lit "NOT" >> Plus ws >> Lit "NULL".
Definition trailingCommaRegex : regex := chr "," >> Eol.

(** [line.match(r)] for the patterns above, which all carry the [i] flag. *)
Definition line_match (r : regex) (line : string) : option match_result :=
  exec true r line.

(* ================================================================== *)
(** ** The parser: name decomposition *)
(* ================================================================== *)

(** [schemaTableColumn(name, expected)]. The result is the array the function
    returns: it has as many elements as the branch taken gives it. *)
Definition schemaTableColumn (name expected : string) : list string :=
  let sn := split "." name in
  let len := length sn in
  if len =? 0 then [""; ""; ""]
  else if String.eqb expected "S.T" && (len =? 1) then "" :: sn
  else if String.eqb expected "S.T" && (len =? 2) then sn
  else if String.eqb expected "T.C" && (len =? 1) then "" :: "" :: sn
  else if String.eqb expected "T.C" && (len =? 2) then "" :: sn
  else sn.

Definition TABLE : nat := 1.
Definition COLUMN : nat := 2.

Definition at_index (l : list string) (i : nat) : option string := nth_error l i.

(* ================================================================== *)
(** ** JSON-like values *)
(* ================================================================== *)

(** The values [compressObj] works on. [JUndefined] is the absence marker.
    A number carries a payload that the code never inspects. An object is
    the list of its own enumerable properties in [Object.keys] order. *)
Unset Elimination Schemes.
Inductive value : Type :=
| JUndefined
| JNull
| JBool (b : bool)
| JNum (n : nat)
| JStr (s : string)
| JArr (elements : list value)
| JObj (properties : list (string * value)).
Set Elimination Schemes.

(** [typeof v === 'object' && v !== null] *)
Definition is_object (v : value) : bool :=
  match v with
  | JArr _ | JObj _ => true
  | _ => false
  end.

(** The negation of [v !== "" && v !== null && v !== undefined] *)
Definition is_blank (v : value) : bool :=
  match v with
  | JUndefined | JNull => true
  | JStr s => String.eqb s ""
  | _ => false
  end.

(** [o[key] = v] on an object [o] that has no own property [key] yet. The
    name [__proto__] is inherited from [Object.prototype] as an accessor: the
    assignment runs its setter and creates no own property. *)
Definition set_fresh (o : list (string * value)) (key : string) (v : value)
  : list (string * value) :=
  if String.eqb key "__proto__" then o else o ++ [(key, v)].

(* ================================================================== *)
(** ** The tree compactor *)
(* ================================================================== *)

(** What a call of [compressObj] returns, with the identity of the returned
    reference: the input itself, a freshly built container, or [undefined]
    in place of a container. *)
Inductive outcome : Type :=
| Same
| Fresh (v : value)
| Absent.

(** The returned JavaScript value. *)
Definition returned (input : value) (o : outcome) : value :=
  match o with
  | Same => input
  | Fresh v => v
  | Absent => JUndefined
  end.

Section CompressStep.
(** The recursive call. *)
Variable recur : value -> outcome.

(** The callback of [input.reduce]; the accumulator is [result] paired
    with the flag [modified] that the callback updates. *)
Definition reduce_element (acc : list value * bool) (element : value)
  : list value * bool :=
  let '(result, modified) := acc in
  if is_object element then
    match recur element with
    | Same => (result ++ [element], modified)
    | Fresh reduced => (result ++ [reduced], true)
    | Absent => (result, true)
    end
  else if negb (is_blank element) then (result ++ [element], modified)
  else (result, true).

(** The body of [for (const key of _keys)], with [value = input[key]]: the
    keys are pairwise distinct, so the loop visits each own property once and
    every assignment to [compressed[key]] is to a key not yet set. *)
Definition reduce_property (acc : list (string * value) * bool)
           (kv : string * value) : list (string * value) * bool :=
  let '(compressed, modified) := acc in
  let '(key, value) := kv in
  if is_object value then
    match recur value with
    | Same => (set_fresh compressed key value, modified)
    | Fresh reduced => (set_fresh compressed key reduced, true)
    | Absent => (compressed, true)
    end
  else if negb (is_blank value) then (set_fresh compressed key value, modified)
  else (compressed, true).
End CompressStep.

Fixpoint compressObj (input : value) : outcome :=
  match input with
  | JArr elements =>
      if length elements =? 0 then Absent
      else
        let '(compressed, modified) :=
          fold_left (reduce_element compressObj) elements ([], false) in
        if (length compressed =? length elements) && negb modified
        then Same
        else if 0 <? length compressed then Fresh (JArr compressed) else Absent
  | JObj properties =>
      if length properties =? 0 then Absent
      else
        let '(compressed, modified) :=
          fold_left (reduce_property compressObj) properties ([], false) in
        if (length compressed =? length properties) && negb modified
        then Same
        else if 0 <? length compressed then Fresh (JObj compressed) else Absent
  | _ => Same
  end.

(** The value-level view of the compactor. *)
Definition compress (input : value) : value := returned input (compressObj input).

(* ================================================================== *)
(** ** The parser: objects and their store *)
(* ================================================================== *)

(** A string or [undefined], as a JSON-like value. *)
Definition jstr (o : option string) : value :=
  match o with
  | Some s => JStr s
  | None => JUndefined
  end.

(** A property key made from a string or [undefined]. *)
Definition to_key (o : option string) : string :=
  match o with
  | Some s => s
  | None => "undefined"
  end.

(** Own property keys are enumerated with the array indices first, in
    ascending order, and the other keys after them in creation order. *)
Definition is_digit (c : ascii) : bool := (48 <=? code c) && (code c <=? 57).

Fixpoint digits_value (s : string) (acc : N) : option N :=
  match s with
  | EmptyString => Some acc
  | String c r =>
      if is_digit c
      then digits_value r (acc * 10 + N.of_nat (code c - 48))%N
      else None
  end.

Definition array_index (key : string) : option N :=
  match key with
  | EmptyString => None
  | String c r =>
      if Ascii.eqb c "0" && negb (String.eqb r "") then None
      else match digits_value key 0%N with
           | Some n => if (n <? 4294967295)%N then Some n else None
           | None => None
           end
  end.

(** The comments object of a table: own properties whose values are strings
    or [undefined]. *)
Definition comments_object : Type := list (string * option string).

(** Creation of a new own property at its place in the enumeration order. *)
Fixpoint add_property (o : comments_object) (key : string) (v : option string)
  : comments_object :=
  match o with
  | [] => [(key, v)]
  | (k, w) :: rest =>
      match array_index key, array_index k with
      | Some n, Some m =>
          if (n <? m)%N then (key, v) :: o else (k, w) :: add_property rest key v
      | Some _, None => (key, v) :: o
      | None, _ => (k, w) :: add_property rest key v
      end
  end.

Fixpoint has_property (o : comments_object) (key : string) : bool :=
  match o with
  | [] => false
  | (k, _) :: rest => String.eqb k key || has_property rest key
  end.

Fixpoint update_property (o : comments_object) (key : string) (v : option string)
  : comments_object :=
  match o with
  | [] => []
  | (k, w) :: rest =>
      if String.eqb k key then (k, v) :: rest
      else (k, w) :: update_property rest key v
  end.

(** [o[key] = v] on a comments object, where [v] is a string or [undefined]:
    the setter of [__proto__] ignores such a value. *)
Definition set_comment (o : comments_object) (key : string) (v : option string)
  : comments_object :=
  if String.eqb key "__proto__" then o
  else if has_property o key then update_property o key v
  else add_property o key v.

(** The table object that [CREATE TABLE] creates; all references to it
    (current table, lookup, result list) share it through the store. *)
Record table : Type := Table {
  t_schema : option string;
  t_name : option string;
  t_columns : list value;
  t_indexes : list value;
  t_constraints : list value;
  t_comments : comments_object;
  t_altComment : option string
}.

Definition push_column (v : value) (t : table) : table :=
  Table (t_schema t) (t_name t) (t_columns t ++ [v]) (t_indexes t)
        (t_constraints t) (t_comments t) (t_altComment t).

Definition push_index (v : value) (t : table) : table :=
  Table (t_schema t) (t_name t) (t_columns t) (t_indexes t ++ [v])
        (t_constraints t) (t_comments t) (t_altComment t).

Definition push_constraint (v : value) (t : table) : table :=
  Table (t_schema t) (t_name t) (t_columns t) (t_indexes t)
        (t_constraints t ++ [v]) (t_comments t) (t_altComment t).

Definition put_comment (key : string) (v : option string) (t : table) : table :=
  Table (t_schema t) (t_name t) (t_columns t) (t_indexes t)
        (t_constraints t) (set_comment (t_comments t) key v) (t_altComment t).

(** The table object as a JSON-like value, properties in creation order. *)
Definition table_value (t : table) : value :=
  JObj [("schema", jstr (t_schema t));
        ("type", JStr "table");
        ("name", jstr (t_name t));
        ("columns", JArr (t_columns t));
        ("indexes", JArr (t_indexes t));
        ("constraints", JArr (t_constraints t));
        ("comments", JObj (map (fun kv => (fst kv, jstr (snd kv))) (t_comments t)));
        ("altComment", jstr (t_altComment t))].

(** An element of [jsonResult]: a value that nothing else refers to (a
    sequence object, or [null]), or a reference to a table object of the
    store. *)
Inductive entry : Type :=
| EValue (v : value)
| ETable (ref : nat).

(** [tableLookup]: its own properties, and its prototype when an assignment
    to [tableLookup["__proto__"]] has replaced [Object.prototype] by a table
    object. It is never enumerated. *)
Record lookup : Type := Lookup {
  l_own : gmap string nat;
  l_proto : option nat
}.

(** The names that every object inherits from [Object.prototype]. *)
Definition object_prototype_names : list string :=
  ["constructor"; "__defineGetter__"; "__defineSetter__"; "hasOwnProperty";
   "__lookupGetter__"; "__lookupSetter__"; "isPrototypeOf";
   "propertyIsEnumerable"; "toString"; "valueOf"; "__proto__";
   "toLocaleString"].

Definition inherited (key : string) : bool :=
  existsb (String.eqb key) object_prototype_names.

(** [tableLookup[key] = ref] *)
Definition register (l : lookup) (key : string) (ref : nat) : lookup :=
  if String.eqb key "__proto__" then Lookup (l_own l) (Some ref)
  else Lookup (<[key := ref]> (l_own l)) (l_proto l).

(** What [tableLookup[key]] evaluates to. *)
Inductive looked_up : Type :=
| LTable (ref : nat)            (* a table object *)
| LText (s : option string)     (* a string or undefined *)
| LArray                        (* an array *)
| LComments (ref : nat)         (* the comments object of a table *)
| LBuiltin                      (* a member of Object.prototype, or itself *)
| LUndefined.

(** A property of a table object that is the prototype of [tableLookup]. *)
Definition table_property (ref : nat) (t : table) (key : string) : option looked_up :=
  if String.eqb key "schema" then Some (LText (t_schema t))
  else if String.eqb key "type" then Some (LText (Some "table"))
  else if String.eqb key "name" then Some (LText (t_name t))
  else if String.eqb key "columns" then Some LArray
  else if String.eqb key "indexes" then Some LArray
  else if String.eqb key "constraints" then Some LArray
  else if String.eqb key "comments" then Some (LComments ref)
  else if String.eqb key "altComment" then Some (LText (t_altComment t))
  else None.

Definition from_object_prototype (key : string) : looked_up :=
  if inherited key then LBuiltin else LUndefined.

Definition get_lookup (l : lookup) (heap : list table) (key : string) : looked_up :=
  if String.eqb key "__proto__" then
    match l_proto l with
    | Some ref => LTable ref
    | None => LBuiltin
    end
  else
    match l_own l !! key with
    | Some ref => LTable ref
    | None =>
        match l_proto l with
        | Some ref =>
            match heap !! ref with
            | Some t =>
                match table_property ref t key with
                | Some v => v
                | None => from_object_prototype key
                end
            | None => from_object_prototype key
            end
        | None => from_object_prototype key
        end
    end.

(* ================================================================== *)
(** ** The parser: the state machine *)
(* ================================================================== *)

Inductive exn : Type :=
| TypeError                 (* a property or method of undefined or null *)
| Error (message : string).

(** The variables of [parseDDL] that the line callback reads and writes,
    the store of table objects, and the diagnostics written so far. *)
Record pstate : Type := PState {
  state : string;
  schemaName : option string;
  currentTable : option nat;
  jsonResult : list entry;
  tableLookup : lookup;
  heap : list table;
  warnings : list string
}.

(** [states.NONE] and [states.TABLE]; the second is named apart from the
    index [TABLE] of the name decomposition. *)
Definition NONE : string := "NONE".
Definition IN_TABLE : string := "TABLE".

Definition initial : pstate :=
  PState NONE (Some "") None [] (Lookup ∅ None) [] [].

Definition set_schemaName (st : pstate) (s : option string) : pstate :=
  PState (state st) s (currentTable st) (jsonResult st) (tableLookup st)
         (heap st) (warnings st).

Definition push_result (st : pstate) (e : entry) : pstate :=
  PState (state st) (schemaName st) (currentTable st) (jsonResult st ++ [e])
         (tableLookup st) (heap st) (warnings st).

Definition set_heap (st : pstate) (h : list table) : pstate :=
  PState (state st) (schemaName st) (currentTable st) (jsonResult st)
         (tableLookup st) h (warnings st).

Definition warn (st : pstate) (message : string) : pstate :=
  PState (state st) (schemaName st) (currentTable st) (jsonResult st)
         (tableLookup st) (heap st) (warnings st ++ [message]).

(** A method call on a value that may be [undefined]. *)
Definition defined {A B : Type} (o : option A) (k : A -> exn + B) : exn + B :=
  match o with
  | Some a => k a
  | None => inl TypeError
  end.

(** The [CREATE SEQUENCE] branch. *)
Definition sequence_object (st : pstate) (name altComment : option string) : value :=
  JObj [("schema", jstr (schemaName st));
        ("type", JStr "sequence");
        ("name", jstr name);
        ("altComment", jstr altComment)].

(** The [CREATE TABLE] branch: a new table object, registered under its
    name, becomes the current table. *)
Definition open_table (st : pstate) (name altComment : option string) : pstate :=
  let ref := length (heap st) in
  PState IN_TABLE (schemaName st) (Some ref) (jsonResult st)
         (register (tableLookup st) (to_key name) ref)
         (heap st ++ [Table (schemaName st) name [] [] [] [] altComment])
         (warnings st).

(** The closing branch: push the current table, clear it, leave the table. *)
Definition close_table (st : pstate) : pstate :=
  let pushed :=
    match currentTable st with
    | Some ref => ETable ref
    | None => EValue JNull
    end in
  PState NONE (schemaName st) None (jsonResult st ++ [pushed])
         (tableLookup st) (heap st) (warnings st).

(** [const table = tableLookup[tableName]; if (table) {
       table.comments[columnName] = rhs } else { console.warn(...) }],
    where the right-hand side [rhs] is evaluated only when [table] is truthy
    and may itself raise. *)
Definition attach_comment (st : pstate) (tableName columnName : option string)
           (rhs : exn + option string) : exn + pstate :=
  let unknown :=
    warn st ("Warning: Comment references unknown table '"
             +:+ to_key tableName +:+ "'") in
  match get_lookup (tableLookup st) (heap st) (to_key tableName) with
  | LTable ref =>
      match rhs with
      | inl e => inl e
      | inr comment =>
          inr (set_heap st
                 (alter (put_comment (to_key columnName) comment) ref (heap st)))
      end
  | LText s =>
      (* a non-empty string has no property [comments] *)
      if truthy s then inl TypeError else inr unknown
  | LArray => inl TypeError
  | LComments ref =>
      (* [table] is a comments object: its property [comments], when it has
         one, is a string or undefined; setting a property of a string has
         no effect *)
      match heap st !! ref with
      | Some t =>
          match List.find (fun kv => String.eqb (fst kv) "comments") (t_comments t) with
          | Some (_, Some _) =>
              match rhs with
              | inl e => inl e
              | inr _ => inr st
              end
          | Some (_, None) => inl TypeError
          | None => inl TypeError
          end
      | None => inl TypeError
      end
  | LBuiltin => inl TypeError
  | LUndefined => inr unknown
  end.

(** The [COMMENT ON COLUMN] branch; [trimmed] tells the branch of the [NONE]
    state, which stores [comment.trim()], from that of the [TABLE] state,
    which stores [comment]. *)
Definition comment_branch (st : pstate) (trimmed : bool) (m : match_result)
  : exn + pstate :=
  let comment := group 2 m in
  defined (group 1 m) (fun fullColumnName =>
    let names := schemaTableColumn fullColumnName "S.T.C" in
    let tableName := at_index names TABLE in
    let columnName := at_index names COLUMN in
    attach_comment st tableName columnName
      (if trimmed then defined comment (fun c => inr (Some (trim c)))
       else inr comment)).

(** The branches of the [TABLE] state that push onto an array of the
    current table. *)
Definition on_current (st : pstate) (f : table -> table) : exn + pstate :=
  defined (currentTable st) (fun ref =>
    inr (set_heap st (alter f ref (heap st)))).

Definition split_columns (s : string) : value :=
  JArr (map (fun col => JStr (trim col)) (split "," s)).

Definition primary_key_branch (st : pstate) (pk : match_result) : exn + pstate :=
  defined (group 2 pk) (fun cols =>
    on_current st (push_constraint
      (JObj [("type", JStr "primary_key");
             ("index_name", jstr (group 1 pk));
             ("columns", split_columns cols)]))).

Definition foreign_key_branch (st : pstate) (fk : match_result) : exn + pstate :=
  defined (group 2 fk) (fun cols =>
    on_current st (push_constraint
      (JObj [("type", JStr "foreign_key");
             ("index_name", jstr (group 1 fk));
             ("columns", split_columns cols);
             ("rule", jstr (group 3 fk))]))).

Definition index_branch (st : pstate) (m : match_result) : exn + pstate :=
  on_current st (push_index
    (JObj [("name", jstr (group 2 m));
           ("type", JStr (if truthy (group 1 m) then "unique" else "btree"));
           ("columns", JArr [])])).

(** The combined text [notNull || _dflt || ''], the test for [NOT NULL] in
    it, and the default value salvaged from [_dflt]. *)
Definition nullability_text (_dflt notNull : option string) : string :=
  or_else notNull (or_else _dflt "").

Definition has_not_null (s : string) : bool :=
  match exec false notNullRegex (trim s) with
  | Some _ => true
  | None => false
  end.

Definition default_of (_dflt : option string) : string :=
  trim (replace "DEFAULT" "" (or_else _dflt "")).

Definition column_object (name : option string) (type : string)
           (_dflt notNull altComment : option string) : value :=
  let isNotNull := has_not_null (nullability_text _dflt notNull) in
  let defaultVal := if negb isNotNull then Some (default_of _dflt) else None in
  JObj [("name", jstr name);
        ("type", JStr (replace_regex false trailingCommaRegex "" type));
        ("constraints", JArr (if isNotNull then [JStr "NOT NULL"] else []));
        ("defaultVal", jstr defaultVal);
        ("altComment", jstr altComment)].

Definition column_branch (st : pstate) (altComment : option string)
           (m : match_result) : exn + pstate :=
  defined (group 2 m) (fun type =>
    on_current st (push_column
      (column_object (group 1 m) type (group 3 m) (group 4 m) altComment))).

(** The two cases of [switch (state)]. *)
Definition none_state (st : pstate) (line : string) (altComment : option string)
  : exn + pstate :=
  match line_match schemaRegex line with
  | Some m => inr (set_schemaName st (group 1 m))
  | None =>
  match line_match sequenceRegex line with
  | Some m =>
      defined (group 1 m) (fun sequenceName =>
        let name := at_index (schemaTableColumn sequenceName "S.T") TABLE in
        inr (push_result st (EValue (sequence_object st name altComment))))
  | None =>
  match line_match tableRegex line with
  | Some m =>
      defined (group 1 m) (fun fullTableName =>
        let name := at_index (schemaTableColumn fullTableName "S.T") TABLE in
        inr (open_table st name altComment))
  | None =>
  match line_match commentRegex line with
  | Some m => comment_branch st true m
  | None => inr st
  end end end end.

Definition table_state (st : pstate) (line : string) (altComment : option string)
  : exn + pstate :=
  match line_match primaryKeyRegex line with
  | Some pk => primary_key_branch st pk
  | None =>
  match line_match foreignKeyRegex line with
  | Some fk => foreign_key_branch st fk
  | None =>
  match line_match indexRegex line with
  | Some m => index_branch st m
  | None =>
  match line_match commentRegex line with
  | Some m => comment_branch st false m
  | None =>
  if startsWith (trim line) ");" then inr (close_table st)
  else
  match line_match columnRegex line with
  | Some m => column_branch st altComment m
  | None => inr st
  end end end end end.

(** The parts of a raw line: [rawLine.split("--").map(part => part?.trim())]
    destructured into [mainPart] and [altComment]. *)
Definition line_parts (rawLine : string) : list string :=
  map trim (split "--" rawLine).

Definition mainPart (rawLine : string) : option string := nth_error (line_parts rawLine) 0.
Definition altComment (rawLine : string) : option string := nth_error (line_parts rawLine) 1.

(** The callback of [ddlLines.forEach]. *)
Definition processLine (st : pstate) (rawLine : string) : exn + pstate :=
  match mainPart rawLine with
  | None => inr st
  | Some line =>
      if String.eqb line "" || String.eqb (trim line) "" then inr st
      else if String.eqb (state st) NONE
      then none_state st line (altComment rawLine)
      else if String.eqb (state st) IN_TABLE
      then table_state st line (altComment rawLine)
      else inl (Error ("Unknown state: " +:+ state st))
  end.

(** [forEach]: the lines in order; an exception ends the loop. *)
Fixpoint run (st : pstate) (ddlLines : list string) : exn + pstate :=
  match ddlLines with
  | [] => inr st
  | rawLine :: rest =>
      match processLine st rawLine with
      | inl e => inl e
      | inr st' => run st' rest
      end
  end.

Definition newline : string := String "010"%char "".

(** The state in which [parseDDL] reaches its [return]. *)
Definition parse_state (ddlContent : string) : exn + pstate :=
  run initial (split newline ddlContent).

(** The array [jsonResult] as a JSON-like value: a table object is read
    from the store at that moment. *)
Definition entry_value (h : list table) (e : entry) : value :=
  match e with
  | EValue v => v
  | ETable ref =>
      match h !! ref with
      | Some t => table_value t
      | None => JUndefined
      end
  end.

Definition result_value (st : pstate) : value :=
  JArr (map (entry_value (heap st)) (jsonResult st)).

(** [parseDDL(ddlContent)]: [return objCompress(jsonResult)]. *)
Definition parseDDL (ddlContent : string) : exn + value :=
  match parse_state ddlContent with
  | inl e => inl e
  | inr st => inr (compress (result_value st))
  end.

(* ================================================================== *)
(** ** Predicates on values *)
(* ================================================================== *)

(** No absence marker, empty string, null, empty list or empty mapping at
    any depth, the root included. *)
Fixpoint clean (v : value) : bool :=
  match v with
  | JUndefined | JNull => false
  | JBool _ | JNum _ => true
  | JStr s => negb (String.eqb s "")
  | JArr elements => negb (length elements =? 0) && forallb clean elements
  | JObj properties =>
      negb (length properties =? 0)
      && forallb (fun kv => clean (snd kv)) properties
  end.

(** [clean], and no property named [__proto__] at any depth. *)
Fixpoint settled (v : value) : bool :=
  match v with
  | JUndefined | JNull => false
  | JBool _ | JNum _ => true
  | JStr s => negb (String.eqb s "")
  | JArr elements => negb (length elements =? 0) && forallb settled elements
  | JObj properties =>
      negb (length properties =? 0)
      && forallb (fun kv => negb (String.eqb (fst kv) "__proto__") && settled (snd kv))
           properties
  end.

(** What a value of a container contributes to the compressed container. *)
Definition kept (v : value) : option value :=
  if is_object v then
    match compressObj v with
    | Same => Some v
    | Fresh w => Some w
    | Absent => None
    end
  else if is_blank v then None else Some v.

(** Whether a value of a container is passed on as the same reference. *)
Definition untouched (v : value) : bool :=
  if is_object v then
    match compressObj v with
    | Same => true
    | _ => false
    end
  else negb (is_blank v).

Definition kept_elements (l : list value) : list value := omap kept l.

Definition kept_properties (l : list (string * value)) : list (string * value) :=
  omap (fun kv =>
          if String.eqb (fst kv) "__proto__" then None
          else option_map (pair (fst kv)) (kept (snd kv))) l.

(** Induction on values, with the elements of the containers. *)
Section ValueInduction.
Variable P : value -> Prop.
Hypothesis case_undefined : P JUndefined.
Hypothesis case_null : P JNull.
Hypothesis case_bool : forall b, P (JBool b).
Hypothesis case_num : forall n, P (JNum n).
Hypothesis case_str : forall s, P (JStr s).
Hypothesis case_arr : forall l, Forall P l -> P (JArr l).
Hypothesis case_obj : forall l, Forall (fun kv => P (snd kv)) l -> P (JObj l).

Fixpoint value_ind (v : value) : P v :=
  match v with
  | JUndefined => case_undefined
  | JNull => case_null
  | JBool b => case_bool b
  | JNum n => case_num n
  | JStr s => case_str s
  | JArr l =>
      case_arr l
        ((fix elements (l : list value) : Forall P l :=
            match l with
            | [] => List.Forall_nil P
            | x :: r => List.Forall_cons P x r (value_ind x) (elements r)
            end) l)
  | JObj l =>
      case_obj l
        ((fix properties (l : list (string * value))
            : Forall (fun kv => P (snd kv)) l :=
            match l with
            | [] => List.Forall_nil _
            | x :: r => List.Forall_cons _ x r (value_ind (snd x)) (properties r)
            end) l)
  end.
End ValueInduction.

(** A table record with nothing in its columns, constraints, indexes and
    comments. *)
Definition bare_table (schema type name : string) : value :=
  JObj [("schema", JStr schema); ("type", JStr type); ("name", JStr name);
        ("columns", JArr []); ("constraints", JArr []); ("indexes", JArr []);
        ("comments", JObj [])].


(** An object whose only own property is named [__proto__], as
    [JSON.parse] builds it from the text of such an object. *)
Definition proto_keyed : value := JObj [("__proto__", JNum 1)].

(* ================================================================== *)
(** ** The shapes of a step of the parser *)
(* ================================================================== *)

(** A step that leaves [state], [currentTable] and [jsonResult] alone. *)
Inductive quiet (st : pstate) : pstate -> Prop :=
| quiet_skip : quiet st st
| quiet_heap (f : table -> table) (ref : nat) :
    quiet st (set_heap st (alter f ref (heap st)))
| quiet_warn (message : string) : quiet st (warn st message).

Inductive transition (st : pstate) : pstate -> Prop :=
| step_quiet (st' : pstate) : quiet st st' -> transition st st'
| step_schema (s : option string) :
    state st = NONE -> transition st (set_schemaName st s)
| step_sequence (v : value) :
    state st = NONE -> transition st (push_result st (EValue v))
| step_open (name alt : option string) :
    state st = NONE -> transition st (open_table st name alt)
| step_close :
    state st = IN_TABLE -> transition st (close_table st).

(** What holds of every state that [parseDDL] passes through: the state
    variable has one of its two values, a table is current in the [TABLE]
    state, and every table reference points into the store. *)
Record consistent (st : pstate) : Prop := Consistent {
  known_state : state st = NONE \/ state st = IN_TABLE;
  table_current : state st = IN_TABLE -> currentTable st <> None;
  current_stored : forall ref, currentTable st = Some ref -> ref < length (heap st);
  results_stored : forall ref, In (ETable ref) (jsonResult st) -> ref < length (heap st)
}.

(** The line of a table body that reaches the column branch, with its
    match. *)
Definition column_match (line : string) : option match_result :=
  match line_match primaryKeyRegex line, line_match foreignKeyRegex line,
        line_match indexRegex line, line_match commentRegex line with
  | None, None, None, None =>
      if startsWith (trim line) ");" then None else line_match columnRegex line
  | _, _, _, _ => None
  end.

(** Whether a raw line is one that ends a table body: its main part, once
    trimmed, begins with the closing token. *)
Definition closes_table (rawLine : string) : bool :=
  match mainPart rawLine with
  | Some line => startsWith (trim line) ");"
  | None => false
  end.

(* ================================================================== *)
(** ** Example inputs *)
(* ================================================================== *)

Definition lines (l : list string) : string := String.concat newline l.

(** A schema, a table of three columns with its primary key, a sequence
    and a comment that comes after the table is closed. *)
Definition small_script : string :=
  lines ["CREATE SCHEMA s;";
         "CREATE TABLE s.t (";
         "    id int8 NOT NULL,";
         "    name text, -- shown to users";
         "    amount numeric(10,2) DEFAULT 0,";
         "    CONSTRAINT t_pkey PRIMARY KEY (id)";
         ");";
         "CREATE SEQUENCE s.t_seq";
         "COMMENT ON COLUMN s.t.name IS 'the name';"].

(** A comment on a column of a table named like a member of
    [Object.prototype], at top level and inside a table body. *)
Definition comment_on_constructor : string :=
  "COMMENT ON COLUMN s.constructor.c IS 'x'".

Definition comment_on_toString : string :=
  lines ["CREATE TABLE s.t ("; "COMMENT ON COLUMN s.toString.c IS 'x'"].

Definition comment_on_unknown : string :=
  "COMMENT ON COLUMN s.u.c IS 'x'".

(** A table body that the input never closes. *)
Definition unterminated : string :=
  lines ["CREATE TABLE s.t ("; "id int8 NOT NULL,";
         "COMMENT ON COLUMN s.t.id IS 'key'"].

Definition unterminated_final : pstate :=
  PState IN_TABLE (Some "") (Some 0) []
         (register (Lookup ∅ None) "t" 0)
         [Table (Some "") (Some "t")
                [JObj [("name", JStr "id"); ("type", JStr "int8");
                       ("constraints", JArr [JStr "NOT NULL"]);
                       ("defaultVal", JUndefined); ("altComment", JUndefined)]]
                [] [] [("id", Some "key")] None]
         [].

(** The state right after [CREATE TABLE s.t (] at the start of the input. *)
Definition table_opened : pstate := open_table initial (Some "t") None.

Definition primary_key_line : string := "CONSTRAINT t_pkey PRIMARY KEY (a, b)".

(** The record that the line above appends to the constraints. *)
Definition primary_key_record : value :=
  JObj [("type", JStr "primary_key"); ("index_name", JStr "t_pkey");
        ("columns", JArr [JStr "a"; JStr "b"])].

(** The same record with the key that the specification gives it. *)
Definition spec_primary_key_record : value :=
  JObj [("type", JStr "primary_key"); ("indexName", JStr "t_pkey");
        ("columns", JArr [JStr "a"; JStr "b"])].










Definition lower_line : string := "d text not null,".

(** The table that a comment line names, and the table that a
    [CREATE TABLE] line declares. *)
Definition comment_target (line : string) : option string :=
  match line_match commentRegex line with
  | Some m =>
      match group 1 m with
      | Some fullColumnName =>
          Some (to_key (at_index (schemaTableColumn fullColumnName "S.T.C") TABLE))
      | None => None
      end
  | None => None
  end.

Definition declared_table (line : string) : option string :=
  match line_match tableRegex line with
  | Some m =>
      match group 1 m with
      | Some fullTableName =>
          Some (to_key (at_index (schemaTableColumn fullTableName "S.T") TABLE))
      | None => None
      end
  | None => None
  end.

(** A raw line that names no member of [Object.prototype] as the table of a
    comment, and does not declare a table named [__proto__]. *)
Definition plain_line (rawLine : string) : bool :=
  match mainPart rawLine with
  | Some line =>
      match comment_target line with
      | Some name => negb (inherited name)
      | None => true
      end
      && match declared_table line with
         | Some name => negb (String.eqb name "__proto__")
         | None => true
         end
  | None => true
  end.

(* ================================================================== *)
(** ** What the compactor removes *)
(* ================================================================== *)

(** A value that a container does not keep: a blank primitive, or a
    container that keeps none of its values. A property named [__proto__]
    is not kept whatever it holds. *)
Fixpoint hollow (v : value) : bool :=
  match v with
  | JArr elements => forallb hollow elements
  | JObj properties =>
      forallb (fun kv => String.eqb (fst kv) "__proto__" || hollow (snd kv))
        properties
  | _ => is_blank v
  end.

(** The test of the object branch for a property that is not kept. *)
Definition dropped (kv : string * value) : bool :=
  String.eqb (fst kv) "__proto__" || hollow (snd kv).

(* ================================================================== *)
(** ** The effect of a line on the state of the parser *)
(* ================================================================== *)

(** The diagnostic of the comment branch. *)
Definition unknown_table_warning (name : string) : string :=
  "Warning: Comment references unknown table '" +:+ name +:+ "'".

(** A change of a table object that only pushes onto its columns, indexes
    or constraints. *)
Definition grows (f : table -> table) : Prop :=
  forall t, t_schema (f t) = t_schema t /\ t_name (f t) = t_name t
            /\ t_altComment (f t) = t_altComment t
            /\ t_comments (f t) = t_comments t.

(** Everything that processing one raw line can do to the state. *)
Inductive effect (st : pstate) (rawLine : string) : pstate -> Prop :=
| effect_none : effect st rawLine st
| effect_schema (line : string) (m : match_result) :
    state st = NONE -> mainPart rawLine = Some line ->
    line_match schemaRegex line = Some m ->
    effect st rawLine (set_schemaName st (group 1 m))
| effect_sequence (name : option string) :
    state st = NONE ->
    effect st rawLine
      (push_result st (EValue (sequence_object st name (altComment rawLine))))
| effect_open (name : option string) :
    state st = NONE ->
    effect st rawLine (open_table st name (altComment rawLine))
| effect_close :
    state st = IN_TABLE -> closes_table rawLine = true ->
    effect st rawLine (close_table st)
| effect_body (f : table -> table) (c : nat) :
    state st = IN_TABLE -> currentTable st = Some c -> grows f ->
    effect st rawLine (set_heap st (alter f c (heap st)))
| effect_comment (line name : string) (column comment : option string) (ref : nat) :
    mainPart rawLine = Some line -> comment_target line = Some name ->
    get_lookup (tableLookup st) (heap st) name = LTable ref ->
    effect st rawLine
      (set_heap st (alter (put_comment (to_key column) comment) ref (heap st)))
| effect_warn (line name : string) :
    mainPart rawLine = Some line -> comment_target line = Some name ->
    effect st rawLine (warn st (unknown_table_warning name)).

(** The table references of a result list, in order. *)
Definition table_refs (l : list entry) : list nat :=
  omap (fun e => match e with ETable ref => Some ref | EValue _ => None end) l.

(** What holds, besides [consistent], of every state that [parseDDL]
    passes through: outside a table body no table is current, the tables of
    the result list are in the order of their creation, and the current
    table is newer than all of them. *)
Record orderly (st : pstate) : Prop := Orderly {
  idle_none : state st = NONE -> currentTable st = None;
  refs_sorted : StronglySorted lt (table_refs (jsonResult st));
  refs_below_current :
    forall ref c, In ref (table_refs (jsonResult st)) ->
                  currentTable st = Some c -> ref < c
}.

(** The keys under which the table objects of the store were registered,
    in the order of their creation, and the last table of a given key. *)
Definition table_keys (h : list table) : list string :=
  (fun t => to_key (t_name t)) <$> h.

Definition last_named (h : list table) (key : string) (ref : nat) : Prop :=
  table_keys h !! ref = Some key
  /\ forall ref', table_keys h !! ref' = Some key -> ref' <= ref.

(** [tableLookup] against the store: every entry refers to the last table
    of its key, and every key of a table has an entry. *)
Record indexed (st : pstate) : Prop := Indexed {
  own_not_proto : l_own (tableLookup st) !! "__proto__" = None;
  own_last :
    forall key ref, l_own (tableLookup st) !! key = Some ref ->
                    last_named (heap st) key ref;
  proto_last :
    forall ref, l_proto (tableLookup st) = Some ref ->
                last_named (heap st) "__proto__" ref;
  named_found :
    forall ref key, table_keys (heap st) !! ref = Some key ->
      if String.eqb key "__proto__"
      then l_proto (tableLookup st) <> None
      else l_own (tableLookup st) !! key <> None
}.

(** Two versions of a table object that differ at most in the comments. *)
Definition same_body (t t' : table) : Prop :=
  t_schema t' = t_schema t /\ t_name t' = t_name t
  /\ t_columns t' = t_columns t /\ t_indexes t' = t_indexes t
  /\ t_constraints t' = t_constraints t /\ t_altComment t' = t_altComment t.

(** Reading a property of a comments object. *)
Definition property_of (o : comments_object) (key : string) : option (option string) :=
  snd <$> List.find (fun kv => String.eqb (fst kv) key) o.

(** A raw line that holds nothing before its line comment: white space
    only, or white space and then the comment delimiter. *)
Definition ignorable (rawLine : string) : bool :=
  String.eqb (trimStart rawLine) "" || startsWith (trimStart rawLine) "--".

(** Whether a raw line is a [CREATE SCHEMA] line for the parser. *)
Definition declares_schema (rawLine : string) : bool :=
  match mainPart rawLine with
  | Some line =>
      match line_match schemaRegex line with
      | Some _ => true
      | None => false
      end
  | None => false
  end.

(** A string without a full stop. *)
Fixpoint dotless (s : string) : bool :=
  match s with
  | EmptyString => true
  | String c r => negb (Ascii.eqb c ".") && dotless r
  end.

(** What holds of the result list in every state of a parse: an element
    that is not a table reference is an object that the compactor keeps. *)
Definition solid (e : entry) : Prop :=
  match e with
  | EValue v => hollow v = false
  | ETable _ => True
  end.

(* ================================================================== *)
(** ** Properties of the matcher *)
(* ================================================================== *)

Lemma extends_refl (c : captures) : extends c c.
Proof. intros n H. exact H. Qed.

Lemma extends_trans (c1 c2 c3 : captures) :
  extends c1 c2 -> extends c2 c3 -> extends c1 c3.
Proof. intros H12 H23 n H. auto. Qed.

Lemma extends_cons (c c' : captures) (n : nat) (s : string) :
  extends c c' -> extends c ((n, s) :: c').
Proof.
  intros H m Hm. simpl. destruct (n =? m); [discriminate | auto].
Qed.

Section MatcherFacts.
Context {A : Type}.
Variable icase : bool.
Variable inp : string.

(** A successful repetition has called its continuation with success. *)
Lemma repeat_from_continues greedy body (k : nat -> captures -> option A) :
  (forall i c k' x, body i c k' = Some x ->
     exists j c', k' j c' = Some x /\ extends c c') ->
  forall fuel i c x,
    repeat_from greedy body k fuel i c = Some x ->
    exists j c', k j c' = Some x /\ extends c c'.
Proof.
  intros Hbody. induction fuel as [|fuel IH]; intros i c x; simpl.
  - intros H. exists i, c. split; [exact H | apply extends_refl].
  - assert (Hagain :
      body i c (fun j c' => if i <? j then repeat_from greedy body k fuel j c'
                            else None) = Some x ->
      exists j c', k j c' = Some x /\ extends c c').
    { intros H. apply Hbody in H as (j & c1 & H & H1).
      destruct (i <? j); [|discriminate].
      apply IH in H as (j' & c2 & H & H2).
      exists j', c2. split; [exact H | eapply extends_trans; eassumption]. }
    destruct greedy.
    + destruct (body i c _) eqn:E.
      * intros [= ->]. auto.
      * intros H. exists i, c. split; [exact H | apply extends_refl].
    + destruct (k i c) eqn:E.
      * intros [= ->]. exists i, c. split; [exact E | apply extends_refl].
      * exact Hagain.
Qed.

(** A successful match has called its continuation with success, with
    captures that hold every group the pattern binds. *)
Lemma matcher_continues (r : regex) :
  forall i c (k : nat -> captures -> option A) x,
    matcher icase inp r i c k = Some x ->
    exists j c',
      k j c' = Some x /\ extends c c'
      /\ forall n, binds r n = true -> capture n c' <> None.
Proof.
  induction r as [|items|r1 IH1 r2 IH2|r1 IH1 r2 IH2|greedy r IH|g r IH| |];
    intros i c k x; cbn [matcher binds].
  - intros H. exists i, c. repeat split; [exact H | apply extends_refl | discriminate].
  - destruct (String.get i inp) as [ch|]; [|discriminate].
    destruct (existsb _ items); [|discriminate].
    intros H. exists (S i), c.
    repeat split; [exact H | apply extends_refl | discriminate].
  - intros H. apply IH1 in H as (j1 & c1 & H & E1 & B1).
    apply IH2 in H as (j2 & c2 & H & E2 & B2).
    exists j2, c2. repeat split; [exact H | eapply extends_trans; eassumption|].
    intros n [Hn|Hn]%orb_true_iff; auto.
  - destruct (matcher icase inp r1 i c k) eqn:E.
    + intros [= ->]. apply IH1 in E as (j & c' & H & E1 & B1).
      exists j, c'. repeat split; [exact H | exact E1|].
      intros n [Hn _]%andb_true_iff. auto.
    + intros H. apply IH2 in H as (j & c' & H & E2 & B2).
      exists j, c'. repeat split; [exact H | exact E2|].
      intros n [_ Hn]%andb_true_iff. auto.
  - intros H. apply repeat_from_continues in H as (j & c' & H & E).
    + exists j, c'. repeat split; [exact H | exact E | discriminate].
    + intros i' c0 k' x' H'. apply IH in H' as (j & c' & H' & E & _). eauto.
  - intros H. apply IH in H as (j & c' & H & E & B).
    exists j, ((g, String.substring i (j - i) inp) :: c').
    repeat split; [exact H | now apply extends_cons|].
    intros n [Hn|Hn]%orb_true_iff; simpl.
    + rewrite Hn. discriminate.
    + destruct (g =? n); [discriminate | auto].
  - destruct (i =? 0); [|discriminate].
    intros H. exists i, c. repeat split; [exact H | apply extends_refl | discriminate].
  - destruct (i =? String.length inp); [|discriminate].
    intros H. exists i, c. repeat split; [exact H | apply extends_refl | discriminate].
Qed.
End MatcherFacts.

(** A group that the pattern binds is defined in every match. *)
Lemma exec_binds icase r inp m n :
  exec icase r inp = Some m -> binds r n = true -> exists s, group n m = Some s.
Proof.
  unfold exec. generalize 0 as i. generalize (String.length inp) as fuel.
  induction fuel as [|fuel IH]; intros i; simpl;
    destruct (matcher icase inp r i [] _) eqn:E;
    try discriminate; eauto.
  all: intros [= ->] Hn;
    apply matcher_continues in E as (j & c' & [= <-] & _ & B);
    unfold group; simpl; destruct (capture n c') eqn:Ec; [eauto|];
    now apply B in Hn.
Qed.

(* ================================================================== *)
(** ** Properties of the tree compactor *)
(* ================================================================== *)

Lemma compressObj_array (l : list value) :
  compressObj (JArr l) =
  if length l =? 0 then Absent
  else
    let '(compressed, modified) :=
      fold_left (reduce_element compressObj) l ([], false) in
    if (length compressed =? length l) && negb modified
    then Same
    else if 0 <? length compressed then Fresh (JArr compressed) else Absent.
Proof. reflexivity. Qed.

Lemma compressObj_object (l : list (string * value)) :
  compressObj (JObj l) =
  if length l =? 0 then Absent
  else
    let '(compressed, modified) :=
      fold_left (reduce_property compressObj) l ([], false) in
    if (length compressed =? length l) && negb modified
    then Same
    else if 0 <? length compressed then Fresh (JObj compressed) else Absent.
Proof. reflexivity. Qed.

Lemma reduce_element_eq (acc : list value) (m : bool) (x : value) :
  reduce_element compressObj (acc, m) x =
  (acc ++ from_option (fun w => [w]) [] (kept x), m || negb (untouched x)).
Proof.
  unfold reduce_element, kept, untouched.
  destruct (is_object x).
  - destruct (compressObj x); simpl;
      rewrite ?orb_true_r, ?orb_false_r, ?app_nil_r; reflexivity.
  - destruct (is_blank x); simpl;
      rewrite ?orb_true_r, ?orb_false_r, ?app_nil_r; reflexivity.
Qed.

Lemma fold_elements (l : list value) : forall acc m,
  fold_left (reduce_element compressObj) l (acc, m) =
  (acc ++ kept_elements l, m || negb (forallb untouched l)).
Proof.
  induction l as [|x l IH]; intros acc m.
  - simpl. now rewrite app_nil_r, orb_false_r.
  - cbn [fold_left]. rewrite reduce_element_eq, IH.
    unfold kept_elements. cbn [omap list_omap forallb].
    destruct (kept x), (untouched x); simpl;
      rewrite <- ?app_assoc, ?orb_true_r, ?orb_false_r; reflexivity.
Qed.

Lemma reduce_property_eq (acc : list (string * value)) (m : bool)
      (k : string) (x : value) :
  reduce_property compressObj (acc, m) (k, x) =
  (acc ++ kept_properties [(k, x)], m || negb (untouched x)).
Proof.
  unfold reduce_property, kept_properties, kept, untouched, set_fresh.
  cbn [omap list_omap fst snd].
  destruct (is_object x).
  - destruct (compressObj x); destruct (String.eqb k "__proto__"); simpl;
      rewrite ?orb_true_r, ?orb_false_r, ?app_nil_r; reflexivity.
  - destruct (is_blank x); destruct (String.eqb k "__proto__"); simpl;
      rewrite ?orb_true_r, ?orb_false_r, ?app_nil_r; reflexivity.
Qed.

Lemma kept_properties_cons (kv : string * value) (l : list (string * value)) :
  kept_properties (kv :: l) = kept_properties [kv] ++ kept_properties l.
Proof.
  unfold kept_properties. cbn [omap list_omap].
  destruct (String.eqb (fst kv) "__proto__"); [reflexivity|].
  destruct (kept (snd kv)); reflexivity.
Qed.

Lemma fold_properties (l : list (string * value)) : forall acc m,
  fold_left (reduce_property compressObj) l (acc, m) =
  (acc ++ kept_properties l,
   m || negb (forallb (fun kv => untouched (snd kv)) l)).
Proof.
  induction l as [|[k x] l IH]; intros acc m.
  - simpl. now rewrite app_nil_r, orb_false_r.
  - cbn [fold_left]. rewrite reduce_property_eq, IH.
    rewrite (kept_properties_cons (k, x) l).
    cbn [forallb snd].
    destruct (untouched x); simpl;
      rewrite <- ?app_assoc, ?orb_true_r, ?orb_false_r; reflexivity.
Qed.

(** The two container cases of [compressObj] in closed form. *)
Lemma compressObj_elements (l : list value) :
  compressObj (JArr l) =
  if length l =? 0 then Absent
  else if (length (kept_elements l) =? length l) && forallb untouched l
  then Same
  else if 0 <? length (kept_elements l) then Fresh (JArr (kept_elements l))
  else Absent.
Proof.
  rewrite compressObj_array, fold_elements. cbn [app orb].
  now rewrite negb_involutive.
Qed.

Lemma compressObj_properties (l : list (string * value)) :
  compressObj (JObj l) =
  if length l =? 0 then Absent
  else if (length (kept_properties l) =? length l)
          && forallb (fun kv => untouched (snd kv)) l
  then Same
  else if 0 <? length (kept_properties l) then Fresh (JObj (kept_properties l))
  else Absent.
Proof.
  rewrite compressObj_object, fold_properties. cbn [app orb].
  now rewrite negb_involutive.
Qed.

Lemma untouched_kept (v : value) : untouched v = true -> kept v = Some v.
Proof.
  unfold untouched, kept. destruct (is_object v).
  - destruct (compressObj v); congruence.
  - destruct (is_blank v); simpl; congruence.
Qed.

Lemma kept_elements_untouched (l : list value) :
  forallb untouched l = true -> kept_elements l = l.
Proof.
  induction l as [|x l IH]; [reflexivity|]. cbn [forallb].
  intros [Hx Hl]%andb_true_iff. unfold kept_elements in *. cbn [omap list_omap].
  now rewrite (untouched_kept x Hx), (IH Hl).
Qed.

Lemma kept_properties_length (l : list (string * value)) :
  length (kept_properties l) <= length l.
Proof.
  induction l as [|kv l IH]; [reflexivity|].
  rewrite kept_properties_cons, length_app. unfold kept_properties at 1.
  cbn [omap list_omap length].
  destruct (String.eqb (fst kv) "__proto__"); [simpl; lia|].
  destruct (kept (snd kv)); simpl; lia.
Qed.

(** A mapping that keeps all its properties has none named [__proto__]. *)
Lemma kept_properties_full (l : list (string * value)) :
  length (kept_properties l) = length l ->
  forallb (fun kv => negb (String.eqb (fst kv) "__proto__")) l = true.
Proof.
  induction l as [|kv l IH]; [reflexivity|].
  rewrite kept_properties_cons, length_app. unfold kept_properties at 1.
  cbn [omap list_omap length forallb].
  pose proof (kept_properties_length l) as Hle.
  destruct (String.eqb (fst kv) "__proto__"); [simpl; lia|].
  destruct (kept (snd kv)); simpl; [|lia].
  intros H. apply IH. lia.
Qed.

Lemma kept_properties_untouched (l : list (string * value)) :
  forallb (fun kv => negb (String.eqb (fst kv) "__proto__")) l = true ->
  forallb (fun kv => untouched (snd kv)) l = true ->
  kept_properties l = l.
Proof.
  induction l as [|[k x] l IH]; [reflexivity|]. cbn [forallb fst snd].
  intros [Hk Hl]%andb_true_iff [Hx Hl']%andb_true_iff.
  rewrite kept_properties_cons, (IH Hl Hl'). unfold kept_properties.
  cbn [omap list_omap fst snd].
  apply negb_true_iff in Hk. now rewrite Hk, (untouched_kept x Hx).
Qed.

Lemma nonempty_length {A : Type} (l : list A) :
  (0 <? length l) = true -> negb (length l =? 0) = true.
Proof. destruct l; [intros H; cbv in H; discriminate | reflexivity]. Qed.

(** Whatever a container keeps of one of its values is [settled]. *)
Lemma kept_settled (v : value) : forall w, kept v = Some w -> settled w = true.
Proof.
  induction v as [| |b|n|s|l IH|l IH] using value_ind; intros w;
    unfold kept; cbn [is_object is_blank];
    try (intros [= <-]; reflexivity); try discriminate.
  - destruct (String.eqb s "") eqn:E; [discriminate|].
    intros [= <-]. simpl. now rewrite E.
  - assert (Hall : forallb settled (kept_elements l) = true).
    { unfold kept_elements. clear w. induction IH as [|x l Hx _ IHl]; [reflexivity|].
      cbn [omap list_omap]. destruct (kept x) as [y|] eqn:E; [|exact IHl].
      cbn [forallb]. now rewrite (Hx y eq_refl), IHl. }
    rewrite compressObj_elements.
    destruct (length l =? 0) eqn:E0; [discriminate|].
    destruct ((length (kept_elements l) =? length l) && forallb untouched l) eqn:E1.
    + apply andb_true_iff in E1 as [_ Hu]. intros [= <-].
      rewrite (kept_elements_untouched l Hu) in Hall.
      cbn [settled]. now rewrite E0, Hall.
    + destruct (0 <? length (kept_elements l)) eqn:E2; [|discriminate].
      intros [= <-]. cbn [settled]. now rewrite (nonempty_length _ E2), Hall.
  - assert (Hall : forallb (fun kv => negb (String.eqb (fst kv) "__proto__")
                                      && settled (snd kv))
                     (kept_properties l) = true).
    { unfold kept_properties. clear w. induction IH as [|[k x] l Hx _ IHl]; [reflexivity|].
      cbn [omap list_omap fst snd] in *.
      destruct (String.eqb k "__proto__") eqn:Ek; [exact IHl|].
      destruct (kept x) as [y|] eqn:E; [|exact IHl].
      cbn [option_map forallb fst snd]. now rewrite Ek, (Hx y eq_refl), IHl. }
    rewrite compressObj_properties.
    destruct (length l =? 0) eqn:E0; [discriminate|].
    destruct ((length (kept_properties l) =? length l)
              && forallb (fun kv => untouched (snd kv)) l) eqn:E1.
    + apply andb_true_iff in E1 as [Hlen Hu]. intros [= <-].
      apply Nat.eqb_eq in Hlen.
      rewrite (kept_properties_untouched l (kept_properties_full l Hlen) Hu) in Hall.
      cbn [settled]. now rewrite E0, Hall.
    + destruct (0 <? length (kept_properties l)) eqn:E2; [|discriminate].
      intros [= <-]. cbn [settled]. now rewrite (nonempty_length _ E2), Hall.
Qed.

(** A [settled] value is passed on as it is. *)
Lemma settled_untouched (v : value) : settled v = true -> untouched v = true.
Proof.
  induction v as [| |b|n|s|l IH|l IH] using value_ind;
    unfold untouched; cbn [is_object is_blank settled negb]; try congruence.
  - intros [Hne Hall]%andb_true_iff.
    assert (Hu : forallb untouched l = true).
    { clear Hne. induction IH as [|x l Hx _ IHl]; [reflexivity|].
      cbn [forallb] in *. apply andb_true_iff in Hall as [H1 H2].
      now rewrite (Hx H1), (IHl H2). }
    rewrite compressObj_elements, (kept_elements_untouched l Hu), Hu, Nat.eqb_refl.
    apply negb_true_iff in Hne. now rewrite Hne.
  - intros [Hne Hall]%andb_true_iff.
    assert (Hk : forallb (fun kv => negb (String.eqb (fst kv) "__proto__")) l = true
                 /\ forallb (fun kv => untouched (snd kv)) l = true).
    { clear Hne. induction IH as [|x l Hx _ IHl]; [split; reflexivity|].
      cbn [forallb] in *. apply andb_true_iff in Hall as [[H0 H1]%andb_true_iff H2].
      destruct (IHl H2) as [-> ->]. now rewrite H0, (Hx H1). }
    destruct Hk as [Hk Hu].
    rewrite compressObj_properties, (kept_properties_untouched l Hk Hu), Hu, Nat.eqb_refl.
    apply negb_true_iff in Hne. now rewrite Hne.
Qed.


(** What [compressObj] returns for a container is absent or [settled]. *)
Lemma compress_settled (v : value) :
  is_object v = true -> compress v = JUndefined \/ settled (compress v) = true.
Proof.
  intros Hobj. unfold compress.
  pose proof (kept_settled v) as H. unfold kept in H. rewrite Hobj in H.
  destruct (compressObj v); simpl; [right|right|left; reflexivity]; now apply H.
Qed.

(** A [settled] container comes back as the same reference. *)
Lemma settled_same (v : value) :
  is_object v = true -> settled v = true -> compressObj v = Same.
Proof.
  intros Hobj Hs. pose proof (settled_untouched v Hs) as H.
  unfold untouched in H. rewrite Hobj in H. now destruct (compressObj v).
Qed.

(** C1, as stated, fails: the list holding a table record whose columns,
    constraints, indexes and comments are empty does not compact to the
    absence marker. *)
Lemma bare_table_not_absent :
  compress (JArr [bare_table "s" "table" "t"]) <> JUndefined.
Proof. vm_compute. discriminate. Qed.

(** C1, amended: the record loses its four empty containers and keeps its
    non-empty schema, type and name, so the list compacts to the one-element
    list of that shorter record. *)
Theorem bare_table_compacted (schema type name : string) :
  schema <> "" -> type <> "" -> name <> "" ->
  compress (JArr [bare_table schema type name]) =
  JArr [JObj [("schema", JStr schema); ("type", JStr type); ("name", JStr name)]].
Proof.
  intros Hs Ht Hn.
  apply String.eqb_neq in Hs, Ht, Hn.
  unfold compress, bare_table.
  rewrite compressObj_elements. unfold kept_elements.
  cbn [omap list_omap kept is_object forallb untouched length Nat.eqb].
  rewrite compressObj_properties. unfold kept_properties.
  cbn [omap list_omap kept untouched is_object is_blank fst snd forallb length
       option_map String.eqb Ascii.eqb Bool.eqb compressObj Nat.eqb fold_left
       andb negb].
  rewrite Hs, Ht, Hn. reflexivity.
Qed.

Lemma bare_table_compacted_witness :
  compress (JArr [bare_table "s" "table" "t"]) =
  JArr [JObj [("schema", JStr "s"); ("type", JStr "table"); ("name", JStr "t")]].
Proof. apply bare_table_compacted; discriminate. Defined.




(** C5 at the failing input: nothing in the object is removable, and yet
    the compactor returns the absence marker instead of the input. *)
Theorem proto_keyed_absent :
  clean proto_keyed = true /\ compressObj proto_keyed = Absent.
Proof. split; reflexivity. Qed.

(** C6: the compactor is idempotent, the absence marker being the fixed
    point for input that compacts to nothing: a second pass returns what the
    first pass returned, and returns it as the same reference. *)
Theorem compress_idempotent (v : value) :
  compress (compress v) = compress v /\ compressObj (compress v) = Same.
Proof.
  assert (Hsame : compressObj (compress v) = Same).
  { destruct (is_object v) eqn:Hobj.
    - destruct (compress_settled v Hobj) as [H|H].
      + rewrite H. reflexivity.
      + destruct (is_object (compress v)) eqn:Hres.
        * now apply settled_same.
        * now destruct (compress v).
    - assert (E : compress v = v) by now destruct v.
      rewrite E. now destruct v. }
  split; [|exact Hsame].
  unfold compress at 1. now rewrite Hsame.
Qed.

(* ================================================================== *)
(** ** Properties of the parser: the shape of a step *)
(* ================================================================== *)

Ltac branches H :=
  repeat match type of H with
         | inl _ = inr _ => discriminate H
         | inr _ = inr _ => injection H as <-
         | (match ?x with _ => _ end) = _ => destruct x eqn:?
         | (if ?x then _ else _) = _ => destruct x eqn:?
         end.

Create HintDb ddl.
#[local] Hint Constructors quiet transition : ddl.

Lemma attach_comment_quiet st tableName columnName rhs st' :
  attach_comment st tableName columnName rhs = inr st' -> quiet st st'.
Proof.
  unfold attach_comment. intros H. branches H; auto with ddl.
Qed.

Lemma comment_branch_quiet st trimmed m st' :
  comment_branch st trimmed m = inr st' -> quiet st st'.
Proof.
  unfold comment_branch, defined. intros H.
  destruct (group 1 m); [|discriminate].
  now apply attach_comment_quiet in H.
Qed.

Lemma on_current_quiet st f st' : on_current st f = inr st' -> quiet st st'.
Proof.
  unfold on_current, defined. intros H. branches H; auto with ddl.
Qed.

(** In the [TABLE] state a line either closes the table, and then it begins
    with the closing token, or is quiet. *)
Lemma table_state_cases st line alt st' :
  table_state st line alt = inr st' ->
  (startsWith (trim line) ");" = true /\ st' = close_table st) \/ quiet st st'.
Proof.
  unfold table_state, primary_key_branch, foreign_key_branch, index_branch,
    column_branch, defined.
  intros H.
  repeat match type of H with
         | (match line_match ?r line with _ => _ end) = _ =>
             destruct (line_match r line) eqn:?
         | (match group ?n ?m with _ => _ end) = _ => destruct (group n m) eqn:?
         | (if startsWith _ _ then _ else _) = _ =>
             destruct (startsWith (trim line) ");") eqn:?
         | inl _ = inr _ => discriminate H
         end;
    try (right; eauto using on_current_quiet, comment_branch_quiet with ddl; fail).
  - injection H as <-. left. split; reflexivity.
  - injection H as <-. right. constructor.
Qed.

Lemma none_state_transition st line alt st' :
  state st = NONE -> none_state st line alt = inr st' -> transition st st'.
Proof.
  unfold none_state, defined. intros Hst H.
  repeat match type of H with
         | (match line_match ?r line with _ => _ end) = _ =>
             destruct (line_match r line) eqn:?
         | (match group ?n ?m with _ => _ end) = _ => destruct (group n m) eqn:?
         | inl _ = inr _ => discriminate H
         end;
    try (injection H as <-; auto with ddl; fail).
  apply comment_branch_quiet in H. auto with ddl.
Qed.

Lemma processLine_transition st rawLine st' :
  processLine st rawLine = inr st' -> transition st st'.
Proof.
  unfold processLine. intros H.
  destruct (mainPart rawLine) as [line|]; [|injection H as <-; auto with ddl].
  destruct (String.eqb line "" || String.eqb (trim line) "");
    [injection H as <-; auto with ddl|].
  destruct (String.eqb (state st) NONE) eqn:E1.
  - apply String.eqb_eq in E1. eauto using none_state_transition.
  - destruct (String.eqb (state st) IN_TABLE) eqn:E2; [|discriminate].
    apply String.eqb_eq in E2.
    apply table_state_cases in H as [[_ ->]|H]; auto with ddl.
Qed.

Ltac no_error :=
  repeat match goal with
         | H : inr _ = inl _ |- _ => discriminate H
         | H : inl TypeError = inl _ |- _ => discriminate H
         | H : inl ?e = inl (Error _) |- _ => is_var e; injection H as ->
         | H : (match ?x with _ => _ end) = inl _ |- _ => destruct x eqn:?
         | H : (if ?x then _ else _) = inl _ |- _ => destruct x eqn:?
         end.

(** The fatal branch of [switch (state)] is taken in no consistent state. *)
Lemma processLine_known_state st rawLine message :
  consistent st -> processLine st rawLine <> inl (Error message).
Proof.
  intros [Hk _ _ _]. unfold processLine.
  destruct (mainPart rawLine) as [line|]; [|discriminate].
  destruct (String.eqb line "" || String.eqb (trim line) ""); [discriminate|].
  destruct Hk as [Hk|Hk]; rewrite Hk.
  - change (String.eqb NONE NONE) with true. cbv iota.
    unfold none_state, comment_branch, attach_comment, defined.
    intros H. no_error.
  - change (String.eqb IN_TABLE NONE) with false.
    change (String.eqb IN_TABLE IN_TABLE) with true. cbv iota.
    unfold table_state, primary_key_branch, foreign_key_branch, index_branch,
      column_branch, on_current, comment_branch, attach_comment, defined.
    intros H. no_error.
Qed.

(* ================================================================== *)
(** ** Properties of the parser: reachable states *)
(* ================================================================== *)

Lemma consistent_initial : consistent initial.
Proof.
  split; simpl.
  - now left.
  - discriminate.
  - discriminate.
  - contradiction.
Qed.

Lemma quiet_same st st' :
  quiet st st' ->
  state st' = state st /\ currentTable st' = currentTable st
  /\ jsonResult st' = jsonResult st /\ length (heap st') = length (heap st).
Proof.
  intros []; simpl; repeat split; try reflexivity. apply length_alter.
Qed.

Lemma transition_consistent st st' :
  consistent st -> transition st st' -> consistent st'.
Proof.
  intros [Hk Hc Hs Hr] [st'' Hq|s Hst|v Hst|name alt Hst|Hst].
  - destruct (quiet_same _ _ Hq) as (E1 & E2 & E3 & E4).
    split; rewrite ?E1, ?E2, ?E3, ?E4; assumption.
  - split; assumption.
  - split; simpl; try assumption.
    intros ref [H|[H|[]]]%in_app_or; [auto | discriminate].
  - split; simpl.
    + now right.
    + discriminate.
    + intros ref [= <-]. rewrite length_app. simpl. lia.
    + intros ref H. apply Hr in H. rewrite length_app. simpl. lia.
  - split; simpl.
    + now left.
    + discriminate.
    + discriminate.
    + intros ref [H|[H|[]]]%in_app_or; [auto|].
      destruct (currentTable st) as [r|] eqn:E; [|discriminate].
      injection H as ->. auto.
Qed.

Lemma run_consistent (ddlLines : list string) : forall st final,
  consistent st -> run st ddlLines = inr final -> consistent final.
Proof.
  induction ddlLines as [|rawLine rest IH]; intros st final Hst; simpl.
  - now intros [= <-].
  - destruct (processLine st rawLine) as [e|st'] eqn:E; [discriminate|].
    apply IH. eauto using transition_consistent, processLine_transition.
Qed.

Lemma run_app (l1 l2 : list string) : forall st,
  run st (l1 ++ l2) =
  match run st l1 with
  | inl e => inl e
  | inr st' => run st' l2
  end.
Proof.
  induction l1 as [|x l1 IH]; intros st; simpl; [reflexivity|].
  destruct (processLine st x); [reflexivity | apply IH].
Qed.

(** The fatal branch is unreachable: [parseDDL] never raises the
    unknown-state error. *)
Lemma run_known_state (ddlLines : list string) : forall st message,
  consistent st -> run st ddlLines <> inl (Error message).
Proof.
  induction ddlLines as [|rawLine rest IH]; intros st message Hst; simpl.
  - discriminate.
  - destruct (processLine st rawLine) as [e|st'] eqn:E.
    + intros [= ->]. now apply (processLine_known_state st rawLine message).
    + apply IH. eauto using transition_consistent, processLine_transition.
Qed.

(** In the [TABLE] state, a line that does not close the table is quiet. *)
Lemma body_line_quiet st rawLine st' :
  state st = IN_TABLE -> closes_table rawLine = false ->
  processLine st rawLine = inr st' -> quiet st st'.
Proof.
  unfold processLine, closes_table. intros Hst Hopen H.
  destruct (mainPart rawLine) as [line|]; [|injection H as <-; constructor].
  destruct (String.eqb line "" || String.eqb (trim line) "");
    [injection H as <-; constructor|].
  rewrite Hst in H.
  change (String.eqb IN_TABLE NONE) with false in H.
  change (String.eqb IN_TABLE IN_TABLE) with true in H. cbv iota in H.
  apply table_state_cases in H as [[Hclose _]|H]; [congruence | assumption].
Qed.

Lemma table_stays_open (ref : nat) (after : list string) : forall st final,
  state st = IN_TABLE -> currentTable st = Some ref ->
  ~ In (ETable ref) (jsonResult st) ->
  Forall (fun rawLine => closes_table rawLine = false) after ->
  run st after = inr final ->
  state final = IN_TABLE /\ currentTable final = Some ref
  /\ ~ In (ETable ref) (jsonResult final).
Proof.
  induction after as [|rawLine rest IH]; intros st final Hst Hcur Hres Hall; simpl.
  - intros [= <-]. auto.
  - destruct (processLine st rawLine) as [e|st'] eqn:E; [discriminate|].
    apply Forall_cons in Hall as [Hline Hrest].
    destruct (quiet_same _ _ (body_line_quiet _ _ _ Hst Hline E)) as (E1 & E2 & E3 & _).
    apply IH; [congruence | congruence | now rewrite E3 | assumption].
Qed.

(** C10: when a line opens a table and no later line closes it, the parse
    ends with that table object still in the store and current, and no
    element of the result list refers to it; the returned value is the
    compaction of that list. *)
Theorem unterminated_table_omitted
        (ddlContent : string) (before after : list string) (opener : string)
        (st0 final : pstate) (name alt : option string) :
  split newline ddlContent = before ++ opener :: after ->
  run initial before = inr st0 ->
  processLine st0 opener = inr (open_table st0 name alt) ->
  Forall (fun rawLine => closes_table rawLine = false) after ->
  parse_state ddlContent = inr final ->
  ~ In (ETable (length (heap st0))) (jsonResult final)
  /\ currentTable final = Some (length (heap st0))
  /\ (exists t, heap final !! length (heap st0) = Some t)
  /\ parseDDL ddlContent =
     inr (compress (JArr (map (entry_value (heap final)) (jsonResult final)))).
Proof.
  intros Hsplit Hbefore Hopen Hafter Hparse.
  assert (Hst0 : consistent st0) by eauto using run_consistent, consistent_initial.
  unfold parse_state in Hparse. rewrite Hsplit, run_app, Hbefore in Hparse.
  simpl in Hparse. rewrite Hopen in Hparse.
  assert (Hfresh : ~ In (ETable (length (heap st0))) (jsonResult (open_table st0 name alt))).
  { simpl. intros H. apply (results_stored _ Hst0) in H. lia. }
  destruct (table_stays_open (length (heap st0)) after
              (open_table st0 name alt) final
              eq_refl eq_refl Hfresh Hafter Hparse) as (_ & Hcur & Hres).
  assert (Hfinal : consistent final).
  { eapply run_consistent; [|exact Hparse].
    eapply transition_consistent; [exact Hst0|].
    eapply processLine_transition; exact Hopen. }
  repeat split; try assumption.
  - apply lookup_lt_is_Some_2. now apply (current_stored _ Hfinal).
  - unfold parseDDL, parse_state. rewrite Hsplit, run_app, Hbefore. simpl.
    rewrite Hopen, Hparse. reflexivity.
Qed.

Lemma unterminated_table_omitted_witness :
  ~ In (ETable (length (heap initial))) (jsonResult unterminated_final)
  /\ currentTable unterminated_final = Some (length (heap initial))
  /\ (exists t, heap unterminated_final !! length (heap initial) = Some t)
  /\ parseDDL unterminated =
     inr (compress (JArr (map (entry_value (heap unterminated_final))
                              (jsonResult unterminated_final)))).
Proof.
  apply (unterminated_table_omitted unterminated []
           ["id int8 NOT NULL,"; "COMMENT ON COLUMN s.t.id IS 'key'"]
           "CREATE TABLE s.t (" initial unterminated_final (Some "t") None).
  - vm_compute. reflexivity.
  - reflexivity.
  - vm_compute. reflexivity.
  - repeat constructor.
  - vm_compute. reflexivity.
Defined.

(* ================================================================== *)
(** ** The parser on a small script *)
(* ================================================================== *)

Example small_script_parsed :
  parseDDL small_script =
  inr (JArr
         [JObj [("schema", JStr "s"); ("type", JStr "table"); ("name", JStr "t");
                ("columns",
                 JArr [JObj [("name", JStr "id"); ("type", JStr "int8");
                             ("constraints", JArr [JStr "NOT NULL"])];
                       JObj [("name", JStr "name"); ("type", JStr "text");
                             ("altComment", JStr "shown to users")];
                       JObj [("name", JStr "amount"); ("type", JStr "numeric(10,2)");
                             ("defaultVal", JStr "0")]]);
                ("constraints",
                 JArr [JObj [("type", JStr "primary_key");
                             ("index_name", JStr "t_pkey");
                             ("columns", JArr [JStr "id"])]]);
                ("comments", JObj [("name", JStr "the name")])];
          JObj [("schema", JStr "s"); ("type", JStr "sequence");
                ("name", JStr "t_seq")]]).
Proof. vm_compute. reflexivity. Qed.

(* ================================================================== *)
(** ** Properties of the parser: name decomposition *)
(* ================================================================== *)

(** The parts of a name whose parts hold no full stop. *)

Lemma append_cons (c : ascii) (s r : string) :
  String c s +:+ r = String c (s +:+ r).
Proof. reflexivity. Qed.

Lemma append_empty (s : string) : s +:+ "" = s.
Proof.
  induction s as [|c r IH]; [reflexivity|]. now rewrite append_cons, IH.
Qed.

Lemma append_snoc (s : string) (c : ascii) (r : string) :
  (s +:+ String c "") +:+ r = s +:+ String c r.
Proof.
  induction s as [|a s IH]; [reflexivity|]. now rewrite !append_cons, IH.
Qed.

Lemma split_from_dotless (s : string) : forall cur,
  dotless s = true -> split_from "." 0 cur s = [cur +:+ s].
Proof.
  induction s as [|c r IH]; intros cur; cbn [dotless split_from].
  - now rewrite append_empty.
  - intros [Hc Hr]%andb_true_iff. cbn [String.prefix].
    destruct (ascii_dec "." c) as [<-|_]; [discriminate Hc|].
    now rewrite (IH _ Hr), append_snoc.
Qed.

Lemma split_from_dot (a b : string) : forall cur,
  dotless a = true ->
  split_from "." 0 cur (a +:+ "." +:+ b) = (cur +:+ a) :: split_from "." 0 "" b.
Proof.
  induction a as [|c r IH]; intros cur; cbn [dotless].
  - intros _. change ("" +:+ "." +:+ b) with (String "." b).
    cbn [split_from String.prefix String.length Nat.sub].
    destruct (ascii_dec "." ".") as [_|Hne]; [|now destruct Hne].
    destruct b; now rewrite append_empty.
  - intros [Hc Hr]%andb_true_iff. rewrite append_cons.
    cbn [split_from String.prefix].
    destruct (ascii_dec "." c) as [<-|_]; [discriminate Hc|].
    now rewrite (IH _ Hr), append_snoc.
Qed.

Lemma split_one (a : string) : dotless a = true -> split "." a = [a].
Proof. intros H. unfold split. now rewrite split_from_dotless. Qed.

Lemma split_two (a b : string) :
  dotless a = true -> dotless b = true -> split "." (a +:+ "." +:+ b) = [a; b].
Proof.
  intros Ha Hb. unfold split. rewrite split_from_dot by exact Ha.
  now rewrite split_from_dotless.
Qed.

Lemma split_three (a b c : string) :
  dotless a = true -> dotless b = true -> dotless c = true ->
  split "." (a +:+ "." +:+ b +:+ "." +:+ c) = [a; b; c].
Proof.
  intros Ha Hb Hc. unfold split. rewrite split_from_dot by exact Ha.
  rewrite split_from_dot by exact Hb. now rewrite split_from_dotless.
Qed.




(** What does hold of the decomposition: a name of three parts comes back as those
    three parts, whatever the shape tag. *)
Lemma schemaTableColumn_three_parts (name expected a b c : string) :
  split "." name = [a; b; c] -> schemaTableColumn name expected = [a; b; c].
Proof.
  intros H. unfold schemaTableColumn. rewrite H. cbn [length Nat.eqb].
  rewrite !andb_false_r. reflexivity.
Qed.

(* ================================================================== *)
(** ** Properties of the parser: exceptions *)
(* ================================================================== *)

(** C3 at the failing input: a comment on a column of a table that was never
    declared, whose name is that of a member of [Object.prototype], makes
    [parseDDL] raise. *)
Theorem inherited_name_raises : parseDDL comment_on_constructor = inl TypeError.
Proof. vm_compute. reflexivity. Qed.

(** The fatal branch is never taken: no input raises the unknown-state
    error. *)
Lemma unknown_state_unreachable (ddlContent message : string) :
  parseDDL ddlContent <> inl (Error message).
Proof.
  unfold parseDDL, parse_state.
  pose proof (run_known_state (split newline ddlContent) initial message
                consistent_initial) as H.
  destruct (run initial (split newline ddlContent)); congruence.
Qed.

(** C9 at the failing input: inside a table body, a comment that names a
    table never registered, [toString], is fatal; the same comment with a
    name that nothing defines gives the diagnostic and the parse goes on. *)
Theorem unregistered_comment_raises :
  parseDDL comment_on_toString = inl TypeError
  /\ parse_state comment_on_unknown =
     inr (warn initial "Warning: Comment references unknown table 'u'").
Proof. split; vm_compute; reflexivity. Qed.

(** Last write wins: the table registered last under a name is
    the one that the lookup gives for it. *)
Lemma lookup_registered (l : lookup) (h : list table) (name : string) (ref : nat) :
  get_lookup (register l name ref) h name = LTable ref.
Proof.
  unfold get_lookup, register.
  destruct (String.eqb name "__proto__") eqn:E; simpl; [reflexivity|].
  now rewrite lookup_insert_eq.
Qed.

(** A comment resolved to a table object is stored in that object. *)
Lemma attach_comment_stored st tableName columnName comment ref t :
  get_lookup (tableLookup st) (heap st) (to_key tableName) = LTable ref ->
  heap st !! ref = Some t ->
  exists st',
    attach_comment st tableName columnName (inr comment) = inr st'
    /\ heap st' !! ref = Some (put_comment (to_key columnName) comment t).
Proof.
  intros Hl Ht. unfold attach_comment. rewrite Hl. eexists. split; [reflexivity|].
  simpl. rewrite list_lookup_alter_eq, Ht. reflexivity.
Qed.

(* ================================================================== *)
(** ** Properties of the parser: lines of a table body *)
(* ================================================================== *)

Lemma primary_key_line_parts :
  mainPart primary_key_line = Some primary_key_line
  /\ altComment primary_key_line = None.
Proof. split; vm_compute; reflexivity. Qed.

Lemma primary_key_line_match :
  line_match primaryKeyRegex primary_key_line =
  Some (MatchResult 0 36 [(2, "a, b"); (1, "t_pkey")]).
Proof. vm_compute. reflexivity. Qed.

Lemma on_current_stored st f ref t :
  currentTable st = Some ref -> heap st !! ref = Some t ->
  exists st',
    on_current st f = inr st'
    /\ heap st' !! ref = Some (f t)
    /\ state st' = state st /\ currentTable st' = Some ref
    /\ jsonResult st' = jsonResult st.
Proof.
  intros Hcur Ht. unfold on_current. rewrite Hcur. cbn [defined].
  eexists. split; [reflexivity|]. simpl.
  rewrite list_lookup_alter_eq, Ht. auto.
Qed.

(** C7, as stated, fails: in the state right after the table is opened, the
    line does not leave the record with the key [indexName] in the
    constraints of the current table. *)
Lemma primary_key_not_indexName :
  ~ exists st' t',
      processLine table_opened primary_key_line = inr st'
      /\ heap st' !! 0 = Some t'
      /\ t_constraints t' = [spec_primary_key_record].
Proof.
  intros (st' & t' & Hrun & Hheap & Hrec).
  vm_compute in Hrun. injection Hrun as <-.
  vm_compute in Hheap. injection Hheap as <-.
  vm_compute in Hrec. discriminate Hrec.
Qed.

(** C7, amended: in the [TABLE] state the line appends to the constraints
    of the current table the record with type [primary_key], the name under
    the key [index_name], and the two columns. *)
Theorem primary_key_line_recorded (st : pstate) (ref : nat) (t : table) :
  state st = IN_TABLE -> currentTable st = Some ref -> heap st !! ref = Some t ->
  exists st',
    processLine st primary_key_line = inr st'
    /\ heap st' !! ref = Some (push_constraint primary_key_record t)
    /\ t_constraints (push_constraint primary_key_record t) =
       t_constraints t ++ [primary_key_record]
    /\ state st' = IN_TABLE /\ currentTable st' = Some ref
    /\ jsonResult st' = jsonResult st.
Proof.
  intros Hst Hcur Ht.
  destruct (on_current_stored st (push_constraint primary_key_record) ref t Hcur Ht)
    as (st' & Hrun & Hheap & Hstate & Hcur' & Hres).
  exists st'. repeat split; try assumption; [|congruence].
  unfold processLine. destruct primary_key_line_parts as [-> _].
  change (String.eqb primary_key_line "" || String.eqb (trim primary_key_line) "")
    with false.
  rewrite Hst.
  change (String.eqb IN_TABLE NONE) with false.
  change (String.eqb IN_TABLE IN_TABLE) with true. cbv iota.
  unfold table_state. rewrite primary_key_line_match.
  exact Hrun.
Qed.

Lemma primary_key_line_recorded_witness :
  exists st',
    processLine table_opened primary_key_line = inr st'
    /\ heap st' !! 0 =
       Some (push_constraint primary_key_record
               (Table (Some "") (Some "t") [] [] [] [] None))
    /\ t_constraints (push_constraint primary_key_record
                        (Table (Some "") (Some "t") [] [] [] [] None)) =
       [] ++ [primary_key_record]
    /\ state st' = IN_TABLE /\ currentTable st' = Some 0
    /\ jsonResult st' = jsonResult table_opened.
Proof.
  apply (primary_key_line_recorded table_opened 0
           (Table (Some "") (Some "t") [] [] [] [] None));
    reflexivity.
Defined.

(* ================================================================== *)
(** ** Properties of the parser: the nullability test and the default *)
(* ================================================================== *)


Section MatcherAdvances.
Context {A : Type}.
Variable icase : bool.
Variable inp : string.
Variable g : nat.


End MatcherAdvances.






Lemma space_not_letter (c : ascii) :
  is_space c = true -> c <> "N"%char.
Proof. intros H ->. discriminate H. Qed.

Section TokenMatch.
Context {A : Type}.
Variable inp : string.






End TokenMatch.

























(** The column pattern ignores case and the test for the token does not: a
    nullability clause in lower case is captured as such and leaves no
    constraint in the record. *)
Lemma lower_case_clause_unrecorded :
  exists m st',
    column_match lower_line = Some m /\ group 4 m = Some " not null"
    /\ table_state table_opened lower_line None = inr st'
    /\ heap st' !! 0 =
       Some (Table (Some "") (Some "t")
               [JObj [("name", JStr "d"); ("type", JStr "text");
                      ("constraints", JArr []); ("defaultVal", JStr "");
                      ("altComment", JUndefined)]]
               [] [] [] None).
Proof.
  do 2 eexists. split; [vm_compute; reflexivity|].
  split; [reflexivity|]. split; vm_compute; reflexivity.
Qed.

(* ================================================================== *)
(** ** Properties of the parser: where exceptions come from *)
(* ================================================================== *)

Lemma get_lookup_plain (l : lookup) (h : list table) (key : string) :
  l_proto l = None -> inherited key = false ->
  (exists ref, get_lookup l h key = LTable ref) \/ get_lookup l h key = LUndefined.
Proof.
  intros Hproto Hkey. unfold get_lookup. rewrite Hproto.
  destruct (String.eqb key "__proto__") eqn:E.
  - apply String.eqb_eq in E. subst key. discriminate Hkey.
  - destruct (l_own l !! key); [eauto|].
    right. unfold from_object_prototype. now rewrite Hkey.
Qed.

Lemma attach_comment_returns st tableName columnName comment :
  l_proto (tableLookup st) = None -> inherited (to_key tableName) = false ->
  exists st',
    attach_comment st tableName columnName (inr comment) = inr st'
    /\ tableLookup st' = tableLookup st.
Proof.
  intros Hproto Hkey. unfold attach_comment.
  destruct (get_lookup_plain (tableLookup st) (heap st) _ Hproto Hkey)
    as [[ref ->]| ->]; eexists; split; reflexivity.
Qed.

Lemma comment_branch_returns st trimmed line m :
  l_proto (tableLookup st) = None ->
  line_match commentRegex line = Some m ->
  match comment_target line with
  | Some name => negb (inherited name)
  | None => true
  end = true ->
  exists st',
    comment_branch st trimmed m = inr st' /\ tableLookup st' = tableLookup st.
Proof.
  intros Hproto Hm Hplain. unfold comment_target in Hplain. rewrite Hm in Hplain.
  destruct (exec_binds true commentRegex line m 1 Hm eq_refl) as [full Hfull].
  destruct (exec_binds true commentRegex line m 2 Hm eq_refl) as [comment Hcomment].
  rewrite Hfull in Hplain. apply negb_true_iff in Hplain.
  unfold comment_branch. rewrite Hfull, Hcomment. cbn [defined].
  destruct trimmed; now apply attach_comment_returns.
Qed.

Lemma on_current_returns st f :
  currentTable st <> None ->
  exists st', on_current st f = inr st' /\ tableLookup st' = tableLookup st.
Proof.
  intros Hcur. unfold on_current.
  destruct (currentTable st); [|contradiction].
  eexists. split; reflexivity.
Qed.

(** A plain line raises nothing, in any state that the parse can reach in
    which [tableLookup] still inherits from [Object.prototype]. *)
Lemma processLine_returns st rawLine :
  consistent st -> l_proto (tableLookup st) = None -> plain_line rawLine = true ->
  exists st',
    processLine st rawLine = inr st' /\ l_proto (tableLookup st') = None.
Proof.
  intros [Hk Hc _ _] Hproto Hplain. unfold processLine. unfold plain_line in Hplain.
  destruct (mainPart rawLine) as [line|]; [|eauto].
  destruct (String.eqb line "" || String.eqb (trim line) ""); [eauto|].
  apply andb_true_iff in Hplain as [Hcomment Htable].
  destruct Hk as [Hk|Hk]; rewrite Hk.
  - change (String.eqb NONE NONE) with true. cbv iota. unfold none_state.
    destruct (line_match schemaRegex line) eqn:E1; [eauto|].
    destruct (line_match sequenceRegex line) eqn:E2.
    { destruct (exec_binds true sequenceRegex line _ 1 E2 eq_refl) as [full ->].
      cbn [defined]. eauto. }
    destruct (line_match tableRegex line) eqn:E3.
    { destruct (exec_binds true tableRegex line _ 1 E3 eq_refl) as [full Hfull].
      unfold declared_table in Htable. rewrite E3, Hfull in Htable.
      rewrite Hfull. cbn [defined]. eexists. split; [reflexivity|].
      unfold open_table. cbn [tableLookup]. unfold register.
      apply negb_true_iff in Htable. rewrite Htable. exact Hproto. }
    destruct (line_match commentRegex line) eqn:E4; [|eauto].
    destruct (comment_branch_returns st true line _ Hproto E4 Hcomment)
      as (st' & -> & Hl). exists st'. split; [reflexivity | congruence].
  - change (String.eqb IN_TABLE NONE) with false.
    change (String.eqb IN_TABLE IN_TABLE) with true. cbv iota.
    specialize (Hc Hk). unfold table_state.
    destruct (line_match primaryKeyRegex line) eqn:E1.
    { unfold primary_key_branch.
      destruct (exec_binds true primaryKeyRegex line _ 2 E1 eq_refl) as [cols ->].
      cbn [defined].
      destruct (on_current_returns st
                  (push_constraint
                     (JObj [("type", JStr "primary_key");
                            ("index_name", jstr (group 1 m));
                            ("columns", split_columns cols)])) Hc)
        as (st' & -> & Hl).
      exists st'. split; [reflexivity | congruence]. }
    destruct (line_match foreignKeyRegex line) eqn:E2.
    { unfold foreign_key_branch.
      destruct (exec_binds true foreignKeyRegex line _ 2 E2 eq_refl) as [cols ->].
      cbn [defined].
      destruct (on_current_returns st
                  (push_constraint
                     (JObj [("type", JStr "foreign_key");
                            ("index_name", jstr (group 1 m));
                            ("columns", split_columns cols);
                            ("rule", jstr (group 3 m))])) Hc)
        as (st' & -> & Hl).
      exists st'. split; [reflexivity | congruence]. }
    destruct (line_match indexRegex line) eqn:E3.
    { unfold index_branch.
      destruct (on_current_returns st
                  (push_index
                     (JObj [("name", jstr (group 2 m));
                            ("type", JStr (if truthy (group 1 m) then "unique" else "btree"));
                            ("columns", JArr [])])) Hc)
        as (st' & -> & Hl).
      exists st'. split; [reflexivity | congruence]. }
    destruct (line_match commentRegex line) eqn:E4.
    { destruct (comment_branch_returns st false line _ Hproto E4 Hcomment)
        as (st' & -> & Hl). exists st'. split; [reflexivity | congruence]. }
    destruct (startsWith (trim line) ");"); [eauto|].
    destruct (line_match columnRegex line) eqn:E5; [|eauto].
    unfold column_branch.
    destruct (exec_binds true columnRegex line _ 2 E5 eq_refl) as [type ->].
    cbn [defined].
    destruct (on_current_returns st
                (push_column
                   (column_object (group 1 m) type (group 3 m) (group 4 m)
                      (altComment rawLine))) Hc)
      as (st' & -> & Hl).
    exists st'. split; [reflexivity | congruence].
Qed.

Lemma run_returns (ddlLines : list string) : forall st,
  consistent st -> l_proto (tableLookup st) = None ->
  Forall (fun rawLine => plain_line rawLine = true) ddlLines ->
  exists final, run st ddlLines = inr final.
Proof.
  induction ddlLines as [|rawLine rest IH]; intros st Hst Hproto Hall; simpl.
  - eauto.
  - apply Forall_cons in Hall as [Hline Hrest].
    destruct (processLine_returns st rawLine Hst Hproto Hline) as (st' & E & Hproto').
    rewrite E. apply IH; [|assumption|assumption].
    eauto using transition_consistent, processLine_transition.
Qed.

(** The inherited names are the only source of an exception: [parseDDL]
    returns a value
    for every input whose lines are all plain. *)
Lemma parseDDL_returns (ddlContent : string) :
  forallb plain_line (split newline ddlContent) = true ->
  exists v, parseDDL ddlContent = inr v.
Proof.
  intros Hall. unfold parseDDL, parse_state.
  assert (Hlines : Forall (fun rawLine => plain_line rawLine = true)
                     (split newline ddlContent)).
  { apply List.Forall_forall. intros x Hx.
    exact (proj1 (forallb_forall _ _) Hall x Hx). }
  destruct (run_returns _ initial consistent_initial eq_refl Hlines) as [final ->].
  eauto.
Qed.

Example small_script_plain :
  forallb plain_line (split newline small_script) = true.
Proof. vm_compute. reflexivity. Qed.

(* ================================================================== *)
(** ** Further properties of the tree compactor *)
(* ================================================================== *)

Lemma kept_compress (v w : value) : kept v = Some w -> w = compress v.
Proof.
  unfold kept, compress. destruct (is_object v) eqn:Hobj.
  - destruct (compressObj v); simpl; congruence.
  - destruct (is_blank v); [discriminate|].
    intros [= <-]. now destruct v.
Qed.

Lemma kept_elements_nil (l : list value) :
  kept_elements l = [] <-> forallb (fun x => match kept x with None => true | Some _ => false end) l = true.
Proof.
  unfold kept_elements. induction l as [|x l IH]; cbn [omap list_omap forallb].
  - tauto.
  - destruct (kept x); simpl; [split; discriminate | exact IH].
Qed.

Lemma kept_properties_nil (l : list (string * value)) :
  kept_properties l = [] <->
  forallb (fun kv => String.eqb (fst kv) "__proto__"
                     || match kept (snd kv) with None => true | Some _ => false end)
    l = true.
Proof.
  induction l as [|kv l IH]; [cbn; tauto|].
  rewrite kept_properties_cons. cbn [forallb]. unfold kept_properties at 1.
  cbn [omap list_omap].
  destruct (String.eqb (fst kv) "__proto__"); simpl; [exact IH|].
  destruct (kept (snd kv)); simpl; [split; discriminate | exact IH].
Qed.

Lemma forallb_ext_Forall {A : Type} (f g : A -> bool) (l : list A) :
  Forall (fun x => f x = g x) l -> forallb f l = forallb g l.
Proof.
  induction 1 as [|x l Hx _ IH]; [reflexivity|]. cbn [forallb]. now rewrite Hx, IH.
Qed.

(** A container keeps a value exactly when the value is not hollow. *)
Lemma kept_hollow (v : value) :
  match kept v with None => true | Some _ => false end = hollow v.
Proof.
  induction v as [| |b|n|s|l IH|l IH] using value_ind;
    try reflexivity.
  - unfold kept. cbn [is_object is_blank hollow]. now destruct (String.eqb s "").
  - unfold kept. cbn [is_object hollow].
    rewrite <- (forallb_ext_Forall _ _ l IH).
    rewrite compressObj_elements.
    destruct l as [|x l]; [reflexivity|].
    set (l0 := x :: l) in *. cbn [length Nat.eqb].
    remember (forallb (fun x => match kept x with None => true | Some _ => false end) l0)
      as b eqn:E.
    symmetry in E. destruct b.
    + apply kept_elements_nil in E. rewrite E. cbn [length].
      change (0 =? length l0) with false. reflexivity.
    + destruct ((length (kept_elements l0) =? length l0) && forallb untouched l0);
        [reflexivity|].
      destruct (kept_elements l0) eqn:Ek; [|reflexivity].
      apply kept_elements_nil in Ek. congruence.
  - unfold kept. cbn [is_object hollow].
    assert (Hext : Forall (fun kv : string * value =>
                (String.eqb (fst kv) "__proto__"
                 || match kept (snd kv) with None => true | Some _ => false end)
                = (String.eqb (fst kv) "__proto__" || hollow (snd kv))) l).
    { clear -IH. induction IH as [|kv l H _ IHl]; constructor; [|exact IHl].
      now rewrite H. }
    rewrite <- (forallb_ext_Forall _ _ l Hext).
    rewrite compressObj_properties.
    destruct l as [|x l]; [reflexivity|].
    set (l0 := x :: l) in *. cbn [length Nat.eqb].
    remember (forallb (fun kv : string * value =>
                String.eqb (fst kv) "__proto__"
                || match kept (snd kv) with None => true | Some _ => false end) l0)
      as b eqn:E.
    symmetry in E. destruct b.
    + apply kept_properties_nil in E. rewrite E. cbn [length].
      change (0 =? length l0) with false. reflexivity.
    + destruct ((length (kept_properties l0) =? length l0)
                && forallb (fun kv => untouched (snd kv)) l0);
        [reflexivity|].
      destruct (kept_properties l0) eqn:Ek; [|reflexivity].
      apply kept_properties_nil in Ek. congruence.
Qed.

Lemma kept_eq (v : value) :
  kept v = if hollow v then None else Some (compress v).
Proof.
  pose proof (kept_hollow v) as H. destruct (kept v) as [w|] eqn:E.
  - rewrite <- H. now rewrite (kept_compress v w E).
  - now rewrite <- H.
Qed.

Lemma kept_elements_eq (l : list value) :
  kept_elements l = map compress (List.filter (fun x => negb (hollow x)) l).
Proof.
  unfold kept_elements. induction l as [|x l IH]; [reflexivity|].
  cbn [omap list_omap List.filter]. rewrite kept_eq, IH.
  now destruct (hollow x).
Qed.

Lemma kept_properties_eq (l : list (string * value)) :
  kept_properties l =
  map (fun kv => (fst kv, compress (snd kv)))
      (List.filter (fun kv => negb (dropped kv)) l).
Proof.
  induction l as [|kv l IH]; [reflexivity|].
  rewrite kept_properties_cons, IH. unfold kept_properties, dropped.
  cbn [omap list_omap List.filter]. rewrite kept_eq.
  destruct (String.eqb (fst kv) "__proto__"); [reflexivity|].
  now destruct (hollow (snd kv)).
Qed.

Lemma filter_all_false {A : Type} (f : A -> bool) (l : list A) :
  forallb f l = true -> List.filter (fun x => negb (f x)) l = [].
Proof.
  induction l as [|x l IH]; [reflexivity|]. cbn [forallb List.filter].
  intros [-> H]%andb_true_iff. simpl. auto.
Qed.

Lemma filter_some_true {A : Type} (f : A -> bool) (l : list A) :
  forallb f l = false -> List.filter (fun x => negb (f x)) l <> [].
Proof.
  induction l as [|x l IH]; [discriminate|]. cbn [forallb List.filter].
  destruct (f x); simpl; [auto | discriminate].
Qed.

Lemma compress_array_eq (l : list value) :
  compress (JArr l) =
  if forallb hollow l then JUndefined
  else JArr (map compress (List.filter (fun x => negb (hollow x)) l)).
Proof.
  pose proof (kept_hollow (JArr l)) as Hh. unfold kept in Hh.
  cbn [is_object hollow] in Hh. unfold compress.
  destruct (compressObj (JArr l)) eqn:E; rewrite <- Hh; cbn [returned].
  + rewrite compressObj_elements in E.
    destruct (length l =? 0); [discriminate|].
    destruct ((length (kept_elements l) =? length l) && forallb untouched l) eqn:E1.
    * apply andb_true_iff in E1 as [_ Hu].
      now rewrite <- kept_elements_eq, (kept_elements_untouched l Hu).
    * destruct (0 <? length (kept_elements l)); discriminate.
  + rewrite compressObj_elements in E.
    destruct (length l =? 0); [discriminate|].
    destruct ((length (kept_elements l) =? length l) && forallb untouched l);
      [discriminate|].
    destruct (0 <? length (kept_elements l)); [|discriminate].
    injection E as <-. now rewrite kept_elements_eq.
  + reflexivity.
Qed.

Lemma compress_object_eq (l : list (string * value)) :
  compress (JObj l) =
  if forallb dropped l then JUndefined
  else JObj (map (fun kv => (fst kv, compress (snd kv)))
                 (List.filter (fun kv => negb (dropped kv)) l)).
Proof.
  pose proof (kept_hollow (JObj l)) as Hh. unfold kept in Hh.
  cbn [is_object hollow] in Hh. fold dropped in Hh.
  change (fun kv : string * value =>
            String.eqb (fst kv) "__proto__" || hollow (snd kv)) with dropped in Hh.
  unfold compress.
  destruct (compressObj (JObj l)) eqn:E; rewrite <- Hh; cbn [returned].
  + rewrite compressObj_properties in E.
    destruct (length l =? 0); [discriminate|].
    destruct ((length (kept_properties l) =? length l)
              && forallb (fun kv => untouched (snd kv)) l) eqn:E1.
    * apply andb_true_iff in E1 as [Hlen Hu]. apply Nat.eqb_eq in Hlen.
      now rewrite <- kept_properties_eq,
        (kept_properties_untouched l (kept_properties_full l Hlen) Hu).
    * destruct (0 <? length (kept_properties l)); discriminate.
  + rewrite compressObj_properties in E.
    destruct (length l =? 0); [discriminate|].
    destruct ((length (kept_properties l) =? length l)
              && forallb (fun kv => untouched (snd kv)) l);
      [discriminate|].
    destruct (0 <? length (kept_properties l)); [|discriminate].
    injection E as <-. now rewrite kept_properties_eq.
  + reflexivity.
Qed.

(** X1: the compaction of a list is the list of the compactions of its
    elements that are not hollow, or the absence marker when all are; the
    same holds of a mapping and its properties, which keep their keys and
    their order. *)
Theorem compress_unfolds :
  (forall l : list value,
     compress (JArr l) =
     if forallb hollow l then JUndefined
     else JArr (map compress (List.filter (fun x => negb (hollow x)) l)))
  /\ (forall l : list (string * value),
        compress (JObj l) =
        if forallb dropped l then JUndefined
        else JObj (map (fun kv => (fst kv, compress (snd kv)))
                       (List.filter (fun kv => negb (dropped kv)) l))).
Proof. split; [exact compress_array_eq | exact compress_object_eq]. Qed.

(** X2: the compactor returns the absence marker in place of a container
    exactly when the container is hollow: it is empty, or everything in it
    is blank or hollow in turn, at any depth. *)
Theorem compressObj_absent_iff (v : value) :
  compressObj v = Absent <-> is_object v = true /\ hollow v = true.
Proof.
  pose proof (kept_hollow v) as H. unfold kept in H.
  destruct (is_object v) eqn:Hobj.
  - destruct (compressObj v); rewrite <- H; split;
      try discriminate; try tauto; intros [_ ?]; discriminate.
  - split; [|intros [? _]; discriminate].
    destruct v; try discriminate; simpl; discriminate.
Qed.

Lemma kept_same (v : value) :
  is_object v = true -> compressObj v = Same -> settled v = true.
Proof.
  intros Hobj Hsame. apply (kept_settled v). unfold kept. now rewrite Hobj, Hsame.
Qed.

(** X3: the compactor returns a container as the same reference exactly
    when nothing in it is removable and no property is named [__proto__], at
    any depth. *)
Theorem compressObj_same_iff :
  (forall l : list value,
     compressObj (JArr l) = Same <-> settled (JArr l) = true)
  /\ (forall l : list (string * value),
        compressObj (JObj l) = Same <-> settled (JObj l) = true).
Proof.
  split; intros l; split;
    solve [apply kept_same; reflexivity | apply settled_same; reflexivity].
Qed.

Lemma kept_elements_length (l : list value) :
  length (kept_elements l) <= length l.
Proof.
  unfold kept_elements. induction l as [|x l IH]; [reflexivity|].
  cbn [omap list_omap]. destruct (kept x); simpl; lia.
Qed.

(** X4: a container that the compactor builds anew differs from the input,
    is of the same kind and no longer, and has nothing removable left in
    it. *)
Theorem fresh_differs (v w : value) :
  compressObj v = Fresh w ->
  w <> v /\ settled w = true
  /\ ((exists l l', v = JArr l /\ w = JArr l' /\ length l' <= length l)
      \/ (exists l l', v = JObj l /\ w = JObj l' /\ length l' <= length l)).
Proof.
  intros E.
  assert (Hobj : is_object v = true) by (destruct v; try discriminate; reflexivity).
  assert (Hs : settled w = true).
  { apply (kept_settled v). unfold kept. now rewrite Hobj, E. }
  split; [|split; [exact Hs|]].
  - intros ->. rewrite (settled_same v Hobj Hs) in E. discriminate.
  - destruct v as [| | | | |l|l]; try discriminate.
    + left. rewrite compressObj_elements in E.
      destruct (length l =? 0); [discriminate|].
      destruct ((length (kept_elements l) =? length l) && forallb untouched l);
        [discriminate|].
      destruct (0 <? length (kept_elements l)); [|discriminate].
      injection E as <-. exists l, (kept_elements l).
      repeat split. apply kept_elements_length.
    + right. rewrite compressObj_properties in E.
      destruct (length l =? 0); [discriminate|].
      destruct ((length (kept_properties l) =? length l)
                && forallb (fun kv => untouched (snd kv)) l);
        [discriminate|].
      destruct (0 <? length (kept_properties l)); [|discriminate].
      injection E as <-. exists l, (kept_properties l).
      repeat split. apply kept_properties_length.
Qed.

Lemma fresh_differs_witness :
  JArr [JNum 1] <> JArr [JNum 1; JNull] /\ settled (JArr [JNum 1]) = true
  /\ ((exists l l', JArr [JNum 1; JNull] = JArr l /\ JArr [JNum 1] = JArr l'
                    /\ length l' <= length l)
      \/ (exists l l', JArr [JNum 1; JNull] = JObj l /\ JArr [JNum 1] = JObj l'
                       /\ length l' <= length l)).
Proof. apply (fresh_differs (JArr [JNum 1; JNull]) (JArr [JNum 1])). reflexivity. Defined.

Lemma forallb_false_In {A : Type} (f : A -> bool) (l : list A) (x : A) :
  In x l -> f x = false -> forallb f l = false.
Proof.
  intros Hin Hx. destruct (forallb f l) eqn:E; [|reflexivity].
  rewrite forallb_forall in E. rewrite (E x Hin) in Hx. discriminate.
Qed.

(** X5: a number, a boolean or a non-empty string held by a list is held by
    the compacted list, and one held by a mapping under a key other than
    [__proto__] is held by the compacted mapping under that key; zero and
    false are kept like the others. *)
Theorem plain_values_survive (p : value) :
  is_object p = false -> is_blank p = false ->
  (forall l : list value,
     In p l -> exists l', compress (JArr l) = JArr l' /\ In p l')
  /\ (forall (l : list (string * value)) (key : string),
        String.eqb key "__proto__" = false -> In (key, p) l ->
        exists l', compress (JObj l) = JObj l' /\ In (key, p) l').
Proof.
  intros Hobj Hblank.
  assert (Hh : hollow p = false) by (destruct p; try discriminate; exact Hblank).
  assert (Hc : compress p = p) by (destruct p; try discriminate; reflexivity).
  split.
  - intros l Hin. rewrite compress_array_eq, (forallb_false_In hollow l p Hin Hh).
    eexists. split; [reflexivity|].
    rewrite <- Hc at 1. apply in_map, filter_In. split; [exact Hin|]. now rewrite Hh.
  - intros l key Hkey Hin.
    assert (Hd : dropped (key, p) = false) by (unfold dropped; simpl; now rewrite Hkey, Hh).
    rewrite compress_object_eq, (forallb_false_In dropped l (key, p) Hin Hd).
    eexists. split; [reflexivity|].
    apply in_map_iff. exists (key, p). split; [simpl; now rewrite Hc|].
    apply filter_In. split; [exact Hin|]. now rewrite Hd.
Qed.

Lemma plain_values_survive_witness :
  (forall l : list value,
     In (JBool false) l ->
     exists l', compress (JArr l) = JArr l' /\ In (JBool false) l')
  /\ (forall (l : list (string * value)) (key : string),
        String.eqb key "__proto__" = false -> In (key, JBool false) l ->
        exists l', compress (JObj l) = JObj l' /\ In (key, JBool false) l').
Proof. apply (plain_values_survive (JBool false)); reflexivity. Defined.

(* ================================================================== *)
(** ** Properties of the parser: the effect of a line *)
(* ================================================================== *)

Lemma grows_push_column v : grows (push_column v).
Proof. intros t. repeat split. Qed.

Lemma grows_push_index v : grows (push_index v).
Proof. intros t. repeat split. Qed.

Lemma grows_push_constraint v : grows (push_constraint v).
Proof. intros t. repeat split. Qed.

Lemma on_current_effect st rawLine f st' :
  state st = IN_TABLE -> grows f ->
  on_current st f = inr st' -> effect st rawLine st'.
Proof.
  unfold on_current, defined. intros Hst Hf H.
  destruct (currentTable st) as [c|] eqn:E; [|discriminate].
  injection H as <-. now apply effect_body.
Qed.

Lemma attach_comment_effect st rawLine line name tableName column rhs st' :
  mainPart rawLine = Some line -> comment_target line = Some name ->
  to_key tableName = name ->
  attach_comment st tableName column rhs = inr st' -> effect st rawLine st'.
Proof.
  intros Hmain Htarget <-. unfold attach_comment. intros H.
  destruct (get_lookup (tableLookup st) (heap st) (to_key tableName)) eqn:El.
  - destruct rhs as [e|comment]; [discriminate|]. injection H as <-.
    eapply effect_comment; eassumption.
  - destruct (truthy s); [discriminate|]. injection H as <-.
    eapply effect_warn; eassumption.
  - discriminate.
  - branches H. constructor.
  - discriminate.
  - injection H as <-. eapply effect_warn; eassumption.
Qed.

Lemma comment_branch_effect st rawLine line trimmed m st' :
  mainPart rawLine = Some line -> line_match commentRegex line = Some m ->
  comment_branch st trimmed m = inr st' -> effect st rawLine st'.
Proof.
  intros Hmain Hm. unfold comment_branch, defined.
  destruct (group 1 m) as [full|] eqn:Hfull; [|discriminate].
  intros H.
  apply (attach_comment_effect st rawLine line
           (to_key (at_index (schemaTableColumn full "S.T.C") TABLE))
           _ _ _ st' Hmain) in H; [exact H| |reflexivity].
  unfold comment_target. now rewrite Hm, Hfull.
Qed.

(** Whatever a line does to the state is one of the effects. *)
Lemma processLine_effect st rawLine st' :
  processLine st rawLine = inr st' -> effect st rawLine st'.
Proof.
  unfold processLine. intros H.
  destruct (mainPart rawLine) as [line|] eqn:Hmain;
    [|injection H as <-; constructor].
  destruct (String.eqb line "" || String.eqb (trim line) "");
    [injection H as <-; constructor|].
  destruct (String.eqb (state st) NONE) eqn:E1.
  - apply String.eqb_eq in E1. unfold none_state, defined in H.
    destruct (line_match schemaRegex line) eqn:M1.
    { injection H as <-. eapply effect_schema; eassumption. }
    destruct (line_match sequenceRegex line) eqn:M2.
    { destruct (group 1 m); [|discriminate]. injection H as <-.
      now apply effect_sequence. }
    destruct (line_match tableRegex line) eqn:M3.
    { destruct (group 1 m); [|discriminate]. injection H as <-.
      now apply effect_open. }
    destruct (line_match commentRegex line) eqn:M4.
    { eapply comment_branch_effect; eassumption. }
    injection H as <-. constructor.
  - destruct (String.eqb (state st) IN_TABLE) eqn:E2; [|discriminate].
    apply String.eqb_eq in E2.
    unfold table_state, primary_key_branch, foreign_key_branch, index_branch,
      column_branch, defined in H.
    destruct (line_match primaryKeyRegex line) eqn:M1.
    { destruct (group 2 m); [|discriminate].
      eapply on_current_effect; [exact E2 | apply grows_push_constraint | exact H]. }
    destruct (line_match foreignKeyRegex line) eqn:M2.
    { destruct (group 2 m); [|discriminate].
      eapply on_current_effect; [exact E2 | apply grows_push_constraint | exact H]. }
    destruct (line_match indexRegex line) eqn:M3.
    { eapply on_current_effect; [exact E2 | apply grows_push_index | exact H]. }
    destruct (line_match commentRegex line) eqn:M4.
    { eapply comment_branch_effect; eassumption. }
    destruct (startsWith (trim line) ");") eqn:M5.
    { injection H as <-. apply effect_close; [exact E2|].
      unfold closes_table. now rewrite Hmain. }
    destruct (line_match columnRegex line) eqn:M6.
    { destruct (group 2 m); [|discriminate].
      eapply on_current_effect; [exact E2 | apply grows_push_column | exact H]. }
    injection H as <-. constructor.
Qed.

(* ================================================================== *)
(** ** Properties of the parser: the result list and the current table *)
(* ================================================================== *)

Lemma In_table_refs (l : list entry) (ref : nat) :
  In ref (table_refs l) <-> In (ETable ref) l.
Proof.
  unfold table_refs. rewrite <- !list_elem_of_In, list_elem_of_omap. split.
  - intros ([v|r] & Hin & E); [discriminate|]. now injection E as ->.
  - intros Hin. exists (ETable ref). auto.
Qed.

Lemma table_refs_snoc_value (l : list entry) (v : value) :
  table_refs (l ++ [EValue v]) = table_refs l.
Proof. unfold table_refs. rewrite omap_app. simpl. apply app_nil_r. Qed.

Lemma table_refs_snoc_table (l : list entry) (ref : nat) :
  table_refs (l ++ [ETable ref]) = table_refs l ++ [ref].
Proof. unfold table_refs. now rewrite omap_app. Qed.

Lemma sorted_snoc (l : list nat) (c : nat) :
  StronglySorted lt l -> (forall x, In x l -> x < c) ->
  StronglySorted lt (l ++ [c]).
Proof.
  induction 1 as [|x l _ IH Hx]; intros Hlt; simpl.
  - repeat constructor.
  - constructor.
    + apply IH. intros y Hy. apply Hlt. now right.
    + apply List.Forall_app. split; [exact Hx|].
      constructor; [|constructor]. apply Hlt. now left.
Qed.

Lemma sorted_NoDup (l : list nat) : StronglySorted lt l -> NoDup l.
Proof.
  induction 1 as [|x l _ IH Hx]; constructor; [|exact IH].
  intros Hin%list_elem_of_In. rewrite List.Forall_forall in Hx.
  specialize (Hx x Hin). lia.
Qed.

Lemma orderly_initial : orderly initial.
Proof.
  split; simpl.
  - reflexivity.
  - constructor.
  - contradiction.
Qed.

Lemma transition_orderly st st' :
  consistent st -> orderly st -> transition st st' -> orderly st'.
Proof.
  intros [Hk Hc Hs Hr] [Hi Hso Hb] [st'' Hq|s Hst|v Hst|name alt Hst|Hst].
  - destruct (quiet_same _ _ Hq) as (E1 & E2 & E3 & _).
    split; rewrite ?E1, ?E2, ?E3; assumption.
  - split; assumption.
  - split; simpl; rewrite ?table_refs_snoc_value; assumption.
  - split; simpl.
    + discriminate.
    + exact Hso.
    + intros ref c Hin [= <-]. apply Hr. now apply In_table_refs.
  - destruct (currentTable st) as [c|] eqn:E; [|now destruct (Hc Hst)].
    split; simpl; rewrite ?E.
    + reflexivity.
    + rewrite table_refs_snoc_table. apply sorted_snoc; [exact Hso|].
      intros x Hx. now apply (Hb x c).
    + discriminate.
Qed.

(** An invariant of the steps holds of every state that a run reaches. *)
Lemma run_preserves (P : pstate -> Prop) :
  (forall st rawLine st',
      consistent st -> P st -> processLine st rawLine = inr st' -> P st') ->
  forall ddlLines st final,
    consistent st -> P st -> run st ddlLines = inr final -> P final.
Proof.
  intros Hstep. induction ddlLines as [|rawLine rest IH]; intros st final Hc HP; simpl.
  - now intros [= <-].
  - destruct (processLine st rawLine) as [e|st'] eqn:E; [discriminate|].
    apply IH; [|eauto].
    eauto using transition_consistent, processLine_transition.
Qed.

Lemma run_orderly (ddlLines : list string) (st : pstate) :
  run initial ddlLines = inr st -> consistent st /\ orderly st.
Proof.
  intros H. split.
  - eauto using run_consistent, consistent_initial.
  - apply (run_preserves orderly) with ddlLines initial;
      eauto using consistent_initial, orderly_initial,
        transition_orderly, processLine_transition.
Qed.

(** X6: in every state that the parse reaches, the state variable and the
    current table agree: outside a table body no table is current, inside
    one the current table is an object of the store. *)
Theorem current_table_in_table_state (ddlLines : list string) (st : pstate) :
  run initial ddlLines = inr st ->
  (state st = NONE /\ currentTable st = None)
  \/ (state st = IN_TABLE
      /\ exists c t, currentTable st = Some c /\ heap st !! c = Some t).
Proof.
  intros H. destruct (run_orderly ddlLines st H) as [[Hk Hc Hs Hr] [Hi _ _]].
  destruct Hk as [Hk|Hk]; [left; auto|right].
  split; [exact Hk|].
  destruct (currentTable st) as [c|] eqn:E; [|now destruct (Hc Hk)].
  destruct (lookup_lt_is_Some_2 (heap st) c (Hs c eq_refl)) as [t Ht].
  eauto.
Qed.

Lemma current_table_in_table_state_witness :
  (state table_opened = NONE /\ currentTable table_opened = None)
  \/ (state table_opened = IN_TABLE
      /\ exists c t, currentTable table_opened = Some c
                     /\ heap table_opened !! c = Some t).
Proof.
  apply (current_table_in_table_state ["CREATE TABLE s.t ("]).
  vm_compute. reflexivity.
Defined.

(** X7: in every state that the parse reaches, the result list holds the
    table objects in the order of their creation, each at most once, and
    does not hold the current table. *)
Theorem result_tables_in_order (ddlLines : list string) (st : pstate) :
  run initial ddlLines = inr st ->
  StronglySorted lt (table_refs (jsonResult st))
  /\ NoDup (table_refs (jsonResult st))
  /\ forall c, currentTable st = Some c -> ~ In (ETable c) (jsonResult st).
Proof.
  intros H. destruct (run_orderly ddlLines st H) as [_ [_ Hso Hb]].
  split; [exact Hso|]. split; [now apply sorted_NoDup|].
  intros c Hc Hin%In_table_refs. specialize (Hb c c Hin Hc). lia.
Qed.

Lemma result_tables_in_order_witness :
  StronglySorted lt (table_refs (jsonResult (close_table table_opened)))
  /\ NoDup (table_refs (jsonResult (close_table table_opened)))
  /\ forall c, currentTable (close_table table_opened) = Some c ->
               ~ In (ETable c) (jsonResult (close_table table_opened)).
Proof.
  apply (result_tables_in_order ["CREATE TABLE s.t ("; ");"]).
  vm_compute. reflexivity.
Defined.

(* ================================================================== *)
(** ** Properties of the parser: the lookup of tables by name *)
(* ================================================================== *)

Lemma table_keys_alter (f : table -> table) (h : list table) : forall c,
  (forall t, t_name (f t) = t_name t) ->
  table_keys (alter f c h) = table_keys h.
Proof.
  intros c Hf. revert c. unfold table_keys.
  induction h as [|t h IH]; intros [|c]; simpl; try reflexivity.
  - now rewrite Hf.
  - f_equal. apply IH.
Qed.

Lemma table_keys_snoc (h : list table) (t : table) :
  table_keys (h ++ [t]) = table_keys h ++ [to_key (t_name t)].
Proof. unfold table_keys. now rewrite fmap_app. Qed.

Lemma table_keys_length (h : list table) : length (table_keys h) = length h.
Proof. unfold table_keys. apply length_fmap. Qed.

Lemma last_named_unique (h : list table) (key : string) (r1 r2 : nat) :
  last_named h key r1 -> last_named h key r2 -> r1 = r2.
Proof.
  intros [H1 L1] [H2 L2]. specialize (L1 r2 H2). specialize (L2 r1 H1). lia.
Qed.

Lemma indexed_initial : indexed initial.
Proof. split; simpl; try discriminate; reflexivity. Qed.

Lemma indexed_same st st' :
  tableLookup st' = tableLookup st ->
  table_keys (heap st') = table_keys (heap st) ->
  indexed st -> indexed st'.
Proof.
  intros El Ek [H1 H2 H3 H4].
  split; unfold last_named in *; rewrite ?El, ?Ek; assumption.
Qed.

Lemma last_named_old (h : list table) (t : table) (key : string) (ref : nat) :
  last_named h key ref -> to_key (t_name t) <> key ->
  last_named (h ++ [t]) key ref.
Proof.
  intros [Hr Hlast] Hne. unfold last_named. rewrite table_keys_snoc. split.
  - now apply lookup_app_l_Some.
  - intros ref' [[_ H]|[_ H]]%lookup_snoc_Some; [auto | contradiction].
Qed.

Lemma last_named_new (h : list table) (t : table) :
  last_named (h ++ [t]) (to_key (t_name t)) (length h).
Proof.
  unfold last_named. rewrite table_keys_snoc. split.
  - apply list_lookup_middle. now rewrite table_keys_length.
  - intros ref' H%lookup_lt_Some. rewrite length_app, table_keys_length in H.
    simpl in H. lia.
Qed.

Lemma indexed_open st name alt :
  indexed st -> indexed (open_table st name alt).
Proof.
  intros [H1 H2 H3 H4].
  set (t := Table (schemaName st) name [] [] [] [] alt).
  assert (Hkey : to_key (t_name t) = to_key name) by reflexivity.
  unfold open_table, register. fold t.
  destruct (String.eqb (to_key name) "__proto__") eqn:E.
  - apply String.eqb_eq in E. split; cbn [tableLookup heap l_own l_proto].
    + exact H1.
    + intros key ref Hl. apply last_named_old; [auto|].
      rewrite Hkey, E. intros <-. congruence.
    + intros ref [= <-]. rewrite <- E, <- Hkey. apply last_named_new.
    + intros ref key. rewrite table_keys_snoc.
      intros [[_ H]|[_ H]]%lookup_snoc_Some.
      * specialize (H4 ref key H). destruct (String.eqb key "__proto__");
          [discriminate | exact H4].
      * rewrite <- H, Hkey, E. simpl. discriminate.
  - assert (Hne : to_key name <> "__proto__") by now apply String.eqb_neq.
    split; cbn [tableLookup heap l_own l_proto].
    + rewrite lookup_insert_ne; [exact H1 | exact Hne].
    + intros key ref Hl.
      destruct (decide (to_key name = key)) as [<-|Hk].
      * rewrite lookup_insert_eq in Hl. injection Hl as <-.
        rewrite <- Hkey. apply last_named_new.
      * rewrite lookup_insert_ne in Hl by exact Hk.
        apply last_named_old; [auto | now rewrite Hkey].
    + intros ref Hp. apply last_named_old; [auto | now rewrite Hkey].
    + intros ref key. rewrite table_keys_snoc.
      intros [[_ H]|[_ H]]%lookup_snoc_Some.
      * specialize (H4 ref key H). destruct (String.eqb key "__proto__");
          [exact H4|].
        destruct (decide (to_key name = key)) as [<-|Hk].
        -- rewrite lookup_insert_eq. discriminate.
        -- now rewrite lookup_insert_ne by exact Hk.
      * rewrite <- H, Hkey, E, lookup_insert_eq. discriminate.
Qed.

Lemma grows_name (f : table -> table) : grows f -> forall t, t_name (f t) = t_name t.
Proof. intros Hf t. apply Hf. Qed.

Lemma effect_indexed st rawLine st' :
  indexed st -> effect st rawLine st' -> indexed st'.
Proof.
  intros Hi [ |line m _ _ _|name _|name _|_ _|f c _ _ Hf
            |line name column comment ref _ _ _|line name _ _];
    try (apply (indexed_same st); [reflexivity | reflexivity | exact Hi]).
  - now apply indexed_open.
  - apply (indexed_same st); [reflexivity | | exact Hi].
    apply table_keys_alter, grows_name, Hf.
  - apply (indexed_same st); [reflexivity | | exact Hi].
    now apply table_keys_alter.
Qed.

Lemma run_indexed (ddlLines : list string) (st : pstate) :
  run initial ddlLines = inr st -> indexed st.
Proof.
  apply (run_preserves indexed); eauto using consistent_initial, indexed_initial,
    effect_indexed, processLine_effect.
Qed.

Lemma get_lookup_table (l : lookup) (h : list table) (key : string) (ref : nat) :
  get_lookup l h key = LTable ref <->
  if String.eqb key "__proto__" then l_proto l = Some ref
  else l_own l !! key = Some ref.
Proof.
  unfold get_lookup. destruct (String.eqb key "__proto__") eqn:E.
  - destruct (l_proto l); split; congruence.
  - destruct (l_own l !! key); [split; congruence|].
    split; [|discriminate].
    unfold from_object_prototype.
    destruct (l_proto l) as [p|]; [destruct (h !! p) as [t|]|];
      try (destruct (inherited key); discriminate).
    unfold table_property.
    repeat match goal with
           | |- context [if ?b then _ else _] => destruct b
           end; discriminate.
Qed.

(** X8: in every state that the parse reaches, looking a name up in
    [tableLookup] gives a table object exactly when a table was declared
    under that name, and then it gives the one declared last. *)
Theorem lookup_gives_last_declared (ddlLines : list string) (st : pstate) :
  run initial ddlLines = inr st ->
  forall key ref,
    get_lookup (tableLookup st) (heap st) key = LTable ref
    <-> last_named (heap st) key ref.
Proof.
  intros H key ref. destruct (run_indexed ddlLines st H) as [H1 H2 H3 H4].
  rewrite get_lookup_table. split.
  - destruct (String.eqb key "__proto__") eqn:E; [|apply H2].
    apply String.eqb_eq in E. subst key. apply H3.
  - intros Hlast. pose proof (H4 ref key (proj1 Hlast)) as Hf.
    destruct (String.eqb key "__proto__") eqn:E.
    + apply String.eqb_eq in E. subst key.
      destruct (l_proto (tableLookup st)) as [r|] eqn:Ep; [|contradiction].
      f_equal. eapply last_named_unique; [apply H3; reflexivity | exact Hlast].
    + destruct (l_own (tableLookup st) !! key) as [r|] eqn:Eo; [|contradiction].
      f_equal. eapply last_named_unique; [apply H2; exact Eo | exact Hlast].
Qed.

Lemma lookup_gives_last_declared_witness :
  get_lookup (tableLookup (open_table (close_table table_opened) (Some "t") None))
             (heap (open_table (close_table table_opened) (Some "t") None)) "t"
  = LTable 1
  <-> last_named (heap (open_table (close_table table_opened) (Some "t") None))
                 "t" 1.
Proof.
  apply (lookup_gives_last_declared
           ["CREATE TABLE s.t ("; ");"; "CREATE TABLE s.t ("]).
  vm_compute. reflexivity.
Defined.

(* ================================================================== *)
(** ** Properties of the parser: what a line can change *)
(* ================================================================== *)

Lemma same_body_refl (t : table) : same_body t t.
Proof. repeat split. Qed.

Lemma same_body_trans (t1 t2 t3 : table) :
  same_body t1 t2 -> same_body t2 t3 -> same_body t1 t3.
Proof.
  unfold same_body. intros (A1 & A2 & A3 & A4 & A5 & A6) (B1 & B2 & B3 & B4 & B5 & B6).
  repeat split; congruence.
Qed.

Lemma effect_closed_table st rawLine st' ref t :
  consistent st -> orderly st -> effect st rawLine st' ->
  In (ETable ref) (jsonResult st) -> heap st !! ref = Some t ->
  exists t', heap st' !! ref = Some t' /\ same_body t t'
             /\ In (ETable ref) (jsonResult st').
Proof.
  intros Hc [_ _ Hb] Heff Hin Ht.
  destruct Heff as [ |line m _ _ _|name _|name _|_ _|f c _ Hcur Hf
                   |line name column comment r _ _ _|line name _ _];
    cbn [heap jsonResult set_schemaName push_result open_table close_table
         set_heap warn].
  - exists t. auto using same_body_refl.
  - exists t. auto using same_body_refl.
  - exists t. repeat split; auto using same_body_refl. apply in_or_app. now left.
  - exists t. repeat split; auto using same_body_refl.
    now apply lookup_app_l_Some.
  - exists t. repeat split; auto using same_body_refl. apply in_or_app. now left.
  - exists t. repeat split; auto using same_body_refl.
    rewrite list_lookup_alter_ne; [exact Ht|].
    apply In_table_refs in Hin. specialize (Hb ref c Hin Hcur). lia.
  - destruct (decide (r = ref)) as [->|Hne].
    + exists (put_comment (to_key column) comment t).
      repeat split; [|exact Hin]. now rewrite list_lookup_alter_eq, Ht.
    + exists t. repeat split; auto using same_body_refl.
      now rewrite list_lookup_alter_ne.
  - exists t. auto using same_body_refl.
Qed.

(** X9: once a table is in the result list it stays there, and no later
    line changes its schema, name, columns, indexes, constraints or trailing
    comment; only its comments can still change. *)
Theorem closed_table_is_frozen
        (before after : list string) (st st' : pstate) (ref : nat) (t : table) :
  run initial before = inr st ->
  In (ETable ref) (jsonResult st) -> heap st !! ref = Some t ->
  run st after = inr st' ->
  exists t', heap st' !! ref = Some t' /\ same_body t t'
             /\ In (ETable ref) (jsonResult st').
Proof.
  intros Hrun. destruct (run_orderly before st Hrun) as [Hc Ho]. clear Hrun.
  revert st t Hc Ho.
  induction after as [|rawLine rest IH]; intros st t Hc Ho Hin Ht; simpl.
  - intros [= <-]. exists t. auto using same_body_refl.
  - destruct (processLine st rawLine) as [e|st1] eqn:E; [discriminate|].
    intros Hrest.
    destruct (effect_closed_table st rawLine st1 ref t Hc Ho
                (processLine_effect _ _ _ E) Hin Ht) as (t1 & Ht1 & Hb1 & Hin1).
    assert (Hc1 : consistent st1)
      by eauto using transition_consistent, processLine_transition.
    assert (Ho1 : orderly st1)
      by eauto using transition_orderly, processLine_transition.
    destruct (IH st1 t1 Hc1 Ho1 Hin1 Ht1 Hrest) as (t' & Ht' & Hb' & Hin').
    exists t'. eauto using same_body_trans.
Qed.

Lemma closed_table_is_frozen_witness :
  exists t',
    heap (set_heap (close_table table_opened)
            [Table (Some "") (Some "t") [] [] [] [("c", Some "x")] None])
      !! 0 = Some t'
    /\ same_body (Table (Some "") (Some "t") [] [] [] [] None) t'
    /\ In (ETable 0)
          (jsonResult (set_heap (close_table table_opened)
             [Table (Some "") (Some "t") [] [] [] [("c", Some "x")] None])).
Proof.
  apply (closed_table_is_frozen
           ["CREATE TABLE s.t ("; ");"]
           ["id int8 NOT NULL,"; "COMMENT ON COLUMN s.t.c IS 'x'"]
           (close_table table_opened)).
  - vm_compute. reflexivity.
  - vm_compute. auto.
  - reflexivity.
  - vm_compute. reflexivity.
Defined.

(** X10: a line writes at most one diagnostic, it does so only when it is
    a comment line, the diagnostic names the table of the comment, and
    nothing else in the state changes then: the comment is stored nowhere. *)
Theorem diagnostics_from_comments_only (st st' : pstate) (rawLine : string) :
  processLine st rawLine = inr st' ->
  warnings st' = warnings st
  \/ exists line name,
       mainPart rawLine = Some line /\ comment_target line = Some name
       /\ st' = warn st (unknown_table_warning name).
Proof.
  intros H. apply processLine_effect in H.
  destruct H; try (left; reflexivity). right. eauto.
Qed.

Lemma diagnostics_from_comments_only_witness :
  warnings (warn initial (unknown_table_warning "u")) = warnings initial
  \/ exists line name,
       mainPart comment_on_unknown = Some line /\ comment_target line = Some name
       /\ warn initial (unknown_table_warning "u")
          = warn initial (unknown_table_warning name).
Proof.
  apply (diagnostics_from_comments_only initial). vm_compute. reflexivity.
Defined.

(** X11: while a table is open, a line that does not close it leaves the
    state variable, the current table, the result list, the schema name and
    the lookup as they are, and creates no table object: statements that
    open a schema, a sequence or a table have no effect inside a table
    body. *)
Theorem table_body_line_is_inert (st st' : pstate) (rawLine : string) :
  state st = IN_TABLE -> closes_table rawLine = false ->
  processLine st rawLine = inr st' ->
  state st' = IN_TABLE /\ currentTable st' = currentTable st
  /\ jsonResult st' = jsonResult st /\ schemaName st' = schemaName st
  /\ tableLookup st' = tableLookup st /\ length (heap st') = length (heap st).
Proof.
  intros Hst Hopen H. apply processLine_effect in H.
  destruct H as [ |line m Hn _ _|name Hn|name Hn|_ Hcl|f c _ _ _
                |line name column comment r _ _ _|line name _ _];
    try (rewrite Hst in Hn; discriminate Hn);
    try congruence;
    cbn [state currentTable jsonResult schemaName tableLookup heap set_heap warn];
    repeat split; auto using length_alter.
Qed.

Lemma table_body_line_is_inert_witness :
  state table_opened = IN_TABLE /\ currentTable table_opened = currentTable table_opened
  /\ jsonResult table_opened = jsonResult table_opened
  /\ schemaName table_opened = schemaName table_opened
  /\ tableLookup table_opened = tableLookup table_opened
  /\ length (heap table_opened) = length (heap table_opened).
Proof.
  apply (table_body_line_is_inert table_opened table_opened "CREATE SCHEMA other");
    vm_compute; reflexivity.
Defined.

Lemma effect_grows st rawLine st' :
  effect st rawLine st' ->
  exists more, jsonResult st' = jsonResult st ++ more
               /\ length (heap st) <= length (heap st')
               /\ exists new, warnings st' = warnings st ++ new.
Proof.
  intros [ |line m _ _ _|name _|name _|_ _|f c _ _ _
         |line name column comment r _ _ _|line name _ _];
    cbn [jsonResult heap warnings set_schemaName push_result open_table
         close_table set_heap warn];
    rewrite ?length_alter, ?length_app;
    try (exists []; rewrite app_nil_r; repeat split; [lia|];
         first [exists []; now rewrite app_nil_r | eexists; reflexivity]).
  - eexists. repeat split; [lia|]. exists []. now rewrite app_nil_r.
  - eexists. repeat split; [lia|]. exists []. now rewrite app_nil_r.
Qed.

(** X12: a run never takes anything back: the result list and the
    diagnostics only grow at their end, and the store never loses a table
    object. *)
Theorem run_only_adds (ddlLines : list string) : forall (st st' : pstate),
  run st ddlLines = inr st' ->
  exists more new,
    jsonResult st' = jsonResult st ++ more
    /\ warnings st' = warnings st ++ new
    /\ length (heap st) <= length (heap st').
Proof.
  induction ddlLines as [|rawLine rest IH]; intros st st'; simpl.
  - intros [= <-]. exists [], []. now rewrite !app_nil_r.
  - destruct (processLine st rawLine) as [e|st1] eqn:E; [discriminate|].
    intros Hrest.
    destruct (effect_grows _ _ _ (processLine_effect _ _ _ E))
      as (m1 & E1 & L1 & n1 & W1).
    destruct (IH st1 st' Hrest) as (m2 & n2 & E2 & W2 & L2).
    exists (m1 ++ m2), (n1 ++ n2).
    rewrite E2, E1, W2, W1, !app_assoc. repeat split. lia.
Qed.

Lemma run_only_adds_witness :
  exists more new,
    jsonResult (close_table table_opened) = jsonResult table_opened ++ more
    /\ warnings (close_table table_opened) = warnings table_opened ++ new
    /\ length (heap table_opened) <= length (heap (close_table table_opened)).
Proof.
  apply (run_only_adds [");"] table_opened). vm_compute. reflexivity.
Defined.

(* ================================================================== *)
(** ** Properties of the parser: the schema of a table *)
(* ================================================================== *)

Lemma effect_schema_kept st rawLine st' (schema : option string) :
  declares_schema rawLine = false -> effect st rawLine st' ->
  schemaName st = schema ->
  Forall (fun t => t_schema t = schema) (heap st) ->
  schemaName st' = schema /\ Forall (fun t => t_schema t = schema) (heap st').
Proof.
  intros Hno Heff Hs Hall.
  destruct Heff as [ |line m _ Hmain Hm|name _|name _|_ _|f c _ _ Hf
                   |line name column comment r _ _ _|line name _ _];
    cbn [schemaName heap set_schemaName push_result open_table close_table
         set_heap warn]; auto.
  - unfold declares_schema in Hno. rewrite Hmain, Hm in Hno. discriminate.
  - split; [exact Hs|]. apply List.Forall_app. split; [exact Hall|].
    constructor; [exact Hs | constructor].
  - split; [exact Hs|]. apply Forall_alter; [exact Hall|].
    intros t _ Ht. now rewrite (proj1 (Hf t)).
  - split; [exact Hs|]. apply Forall_alter; [exact Hall|].
    intros t _ Ht. exact Ht.
Qed.

(** X13: the schema of a table comes from the [CREATE SCHEMA] lines and
    from nothing else: in an input without such a line, every table object is
    created with the empty schema, whatever qualified name declares it. *)
Theorem schema_only_from_create_schema (ddlLines : list string) (st : pstate) :
  forallb (fun rawLine => negb (declares_schema rawLine)) ddlLines = true ->
  run initial ddlLines = inr st ->
  schemaName st = Some "" /\ Forall (fun t => t_schema t = Some "") (heap st).
Proof.
  assert (Hgen : forall l s0,
    forallb (fun rawLine => negb (declares_schema rawLine)) l = true ->
    schemaName s0 = Some "" -> Forall (fun t => t_schema t = Some "") (heap s0) ->
    run s0 l = inr st ->
    schemaName st = Some "" /\ Forall (fun t => t_schema t = Some "") (heap st)).
  { induction l as [|rawLine rest IH]; intros s0 Hall Hs Hh; simpl.
    - intros [= <-]. auto.
    - cbn [forallb] in Hall. apply andb_true_iff in Hall as [Hno Hrest].
      apply negb_true_iff in Hno.
      destruct (processLine s0 rawLine) as [e|s1] eqn:E; [discriminate|].
      destruct (effect_schema_kept s0 rawLine s1 (Some "") Hno
                  (processLine_effect _ _ _ E) Hs Hh) as [Hs1 Hh1].
      now apply IH. }
  intros Hall. apply Hgen; [exact Hall | reflexivity | constructor].
Qed.

Lemma schema_only_from_create_schema_witness :
  schemaName table_opened = Some ""
  /\ Forall (fun t => t_schema t = Some "") (heap table_opened).
Proof.
  apply (schema_only_from_create_schema ["CREATE TABLE s.t ("]);
    vm_compute; reflexivity.
Defined.

(* ================================================================== *)
(** ** Properties of the parser: lines without content *)
(* ================================================================== *)

Lemma space_not_dash (c : ascii) : is_space c = true -> c <> "-"%char.
Proof. intros H ->. discriminate H. Qed.

Lemma trimStart_snoc_space (cur : string) (c : ascii) :
  trimStart cur = "" -> is_space c = true ->
  trimStart (cur +:+ String c "") = "".
Proof.
  intros Hcur Hc. induction cur as [|a cur IH]; simpl in *.
  - now rewrite Hc.
  - destruct (is_space a); [auto | discriminate].
Qed.

Lemma split_ignorable (rawLine : string) : forall cur,
  trimStart cur = "" -> ignorable rawLine = true ->
  exists w rest, split_from "--" 0 cur rawLine = w :: rest /\ trimStart w = "".
Proof.
  induction rawLine as [|c r IH]; intros cur Hcur Hig.
  - exists cur, []. auto.
  - unfold ignorable in Hig. cbn [trimStart] in Hig.
    cbn [split_from].
    destruct (is_space c) eqn:Hc.
    + assert (Hp : String.prefix "--" (String c r) = false).
      { cbn [String.prefix]. destruct (ascii_dec "-" c) as [<-|_]; [discriminate Hc | reflexivity]. }
      rewrite Hp. apply IH; [now apply trimStart_snoc_space | exact Hig].
    + unfold startsWith in Hig. cbn [String.eqb orb] in Hig.
      rewrite Hig. eauto.
Qed.

Lemma mainPart_ignorable (rawLine : string) :
  ignorable rawLine = true -> mainPart rawLine = Some "".
Proof.
  intros H. destruct (split_ignorable rawLine "" eq_refl H) as (w & rest & E & Hw).
  unfold mainPart, line_parts, split. rewrite E. cbn [map nth_error].
  unfold trim. now rewrite Hw.
Qed.

(** X14: a raw line that is empty, holds white space only, or begins with
    the comment delimiter after optional white space is skipped: it leaves
    the state as it is and raises nothing, whatever the state. *)
Theorem ignorable_line_is_skipped (st : pstate) (rawLine : string) :
  ignorable rawLine = true -> processLine st rawLine = inr st.
Proof.
  intros H. unfold processLine. now rewrite (mainPart_ignorable rawLine H).
Qed.

Lemma ignorable_line_is_skipped_witness :
  processLine table_opened "   -- CREATE TABLE s.u (" = inr table_opened.
Proof. apply ignorable_line_is_skipped. reflexivity. Defined.

Lemma run_ignorable (ddlLines : list string) (st : pstate) :
  forallb ignorable ddlLines = true -> run st ddlLines = inr st.
Proof.
  induction ddlLines as [|rawLine rest IH]; [reflexivity|].
  cbn [forallb run]. intros [H1 H2]%andb_true_iff.
  unfold processLine. rewrite (mainPart_ignorable rawLine H1). simpl. auto.
Qed.

(** X15: an input made of such lines only, the empty input included,
    parses to the absence marker, with no diagnostic. *)
Theorem empty_input_is_absent (ddlContent : string) :
  forallb ignorable (split newline ddlContent) = true ->
  parse_state ddlContent = inr initial /\ parseDDL ddlContent = inr JUndefined.
Proof.
  intros H. unfold parseDDL, parse_state.
  rewrite (run_ignorable _ initial H). split; reflexivity.
Qed.

Lemma empty_input_is_absent_witness :
  parse_state (lines [""; "  -- only a note"; "--"; "   "]) = inr initial
  /\ parseDDL (lines [""; "  -- only a note"; "--"; "   "]) = inr JUndefined.
Proof. apply empty_input_is_absent. vm_compute. reflexivity. Defined.

(* ================================================================== *)
(** ** Properties of the parser: the end of a table body *)
(* ================================================================== *)

Lemma trimEnd_cons (c : ascii) (r : string) :
  trimEnd (String c r) =
  match trimEnd r with
  | EmptyString => if is_space c then EmptyString else String c EmptyString
  | String c' r' => String c (String c' r')
  end.
Proof. reflexivity. Qed.

Lemma trimEnd_idempotent (s : string) : trimEnd (trimEnd s) = trimEnd s.
Proof.
  induction s as [|c r IH]; [reflexivity|]. rewrite trimEnd_cons.
  destruct (trimEnd r) as [|c' r'] eqn:E.
  - destruct (is_space c) eqn:Hc; [reflexivity|]. simpl. now rewrite Hc.
  - rewrite trimEnd_cons, IH. reflexivity.
Qed.

Lemma trimEnd_head (c : ascii) (r : string) :
  is_space c = false -> exists r', trimEnd (String c r) = String c r'.
Proof.
  intros Hc. cbn [trimEnd]. destruct (trimEnd r); [rewrite Hc|]; eauto.
Qed.

Lemma trimStart_head (s : string) :
  trimStart s = ""
  \/ exists c r, trimStart s = String c r /\ is_space c = false.
Proof.
  induction s as [|c r IH]; [now left|]. cbn [trimStart].
  destruct (is_space c) eqn:Hc; [exact IH | right; eauto].
Qed.

Lemma trim_idempotent (s : string) : trim (trim s) = trim s.
Proof.
  unfold trim. destruct (trimStart_head s) as [->|(c & r & -> & Hc)];
    [reflexivity|].
  destruct (trimEnd_head c r Hc) as [r' E].
  assert (Hs : trimStart (trimEnd (String c r)) = trimEnd (String c r)).
  { rewrite E. cbn [trimStart]. now rewrite Hc. }
  now rewrite Hs, trimEnd_idempotent.
Qed.

(** The line that the state machine sees carries no white space around
    it. *)
Lemma mainPart_trimmed (rawLine line : string) :
  mainPart rawLine = Some line -> trim line = line.
Proof.
  unfold mainPart, line_parts. destruct (split "--" rawLine) as [|x l]; [discriminate|].
  cbn [map nth_error]. intros [= <-]. apply trim_idempotent.
Qed.

(** A pattern that fails at every index other than the first matches a
    line only from its start. *)
Lemma exec_fails (icase : bool) (r : regex) (inp : string) :
  (forall i, matcher icase inp r (S i) []
               (fun j c => Some (MatchResult (S i) j c)) = None) ->
  matcher icase inp r 0 [] (fun j c => Some (MatchResult 0 j c)) = None ->
  exec icase r inp = None.
Proof.
  intros Hlater Hfirst. unfold exec.
  assert (Hfrom : forall fuel i, exec_from icase r inp fuel (S i) = None).
  { induction fuel as [|fuel IH]; intros i; simpl; rewrite Hlater; auto. }
  destruct (String.length inp); simpl; rewrite Hfirst; auto.
Qed.

(** None of the statements of a table body begins with a closing
    parenthesis. *)
Lemma closing_line_no_statement (rest : string) :
  line_match primaryKeyRegex (String ")" rest) = None
  /\ line_match foreignKeyRegex (String ")" rest) = None
  /\ line_match indexRegex (String ")" rest) = None
  /\ line_match commentRegex (String ")" rest) = None.
Proof.
  repeat split; apply exec_fails; try (intros i); vm_compute; reflexivity.
Qed.

(** X16: in the table state, a line whose content begins with the closing
    token always ends the table body: the current table is pushed onto the
    result list whatever follows the token on the line, and the line raises
    nothing. *)
Theorem closing_line_closes (st : pstate) (rawLine : string) :
  state st = IN_TABLE -> closes_table rawLine = true ->
  processLine st rawLine = inr (close_table st).
Proof.
  intros Hst Hclose. unfold closes_table in Hclose. unfold processLine.
  destruct (mainPart rawLine) as [line|] eqn:Hmain; [|discriminate].
  pose proof (mainPart_trimmed rawLine line Hmain) as Htrim.
  rewrite Htrim in *. unfold startsWith in Hclose.
  destruct line as [|c rest]; [discriminate|].
  cbn [String.prefix] in Hclose.
  destruct (ascii_dec ")" c) as [<-|]; [|discriminate].
  cbn [String.eqb Ascii.eqb orb]. rewrite Hst.
  change (String.eqb IN_TABLE NONE) with false.
  change (String.eqb IN_TABLE IN_TABLE) with true. cbv iota.
  unfold table_state.
  destruct (closing_line_no_statement rest) as (-> & -> & -> & ->).
  rewrite Htrim. unfold startsWith. cbn [String.prefix].
  destruct (ascii_dec ")" ")") as [_|Hne]; [|now destruct Hne].
  now rewrite Hclose.
Qed.

Lemma closing_line_closes_witness :
  processLine table_opened ");  -- end of t" = inr (close_table table_opened).
Proof. apply closing_line_closes; reflexivity. Defined.

(* ================================================================== *)
(** ** Further properties of the name decomposition *)
(* ================================================================== *)

(** X17: on names whose parts hold no full stop, the decomposition places
    the parts by the tag: with [S.T] a lone name is the table under an empty
    schema and a pair is schema and table, both as two elements with no slot
    for a column; with [T.C] a lone name is the column and a pair is table
    and column, under an empty schema; three parts are schema, table and
    column under every tag. *)
Theorem schemaTableColumn_known_tags (a b c : string) :
  dotless a = true -> dotless b = true -> dotless c = true ->
  schemaTableColumn a "S.T" = [""; a]
  /\ schemaTableColumn (a +:+ "." +:+ b) "S.T" = [a; b]
  /\ schemaTableColumn a "T.C" = [""; ""; a]
  /\ schemaTableColumn (a +:+ "." +:+ b) "T.C" = [""; a; b]
  /\ forall expected,
       schemaTableColumn (a +:+ "." +:+ b +:+ "." +:+ c) expected = [a; b; c].
Proof.
  intros Ha Hb Hc. unfold schemaTableColumn.
  rewrite (split_one a Ha), (split_two a b Ha Hb), (split_three a b c Ha Hb Hc).
  repeat split. intros expected. cbn [length Nat.eqb].
  now rewrite !andb_false_r.
Qed.

Lemma schemaTableColumn_known_tags_witness :
  schemaTableColumn "users" "S.T" = [""; "users"]
  /\ schemaTableColumn ("users" +:+ "." +:+ "id") "S.T" = ["users"; "id"]
  /\ schemaTableColumn "users" "T.C" = [""; ""; "users"]
  /\ schemaTableColumn ("users" +:+ "." +:+ "id") "T.C" = [""; "users"; "id"]
  /\ forall expected,
       schemaTableColumn ("users" +:+ "." +:+ "id" +:+ "." +:+ "x") expected
       = ["users"; "id"; "x"].
Proof. apply (schemaTableColumn_known_tags "users" "id" "x"); reflexivity. Defined.

(* ================================================================== *)
(** ** Properties of the parser: the records of the output *)
(* ================================================================== *)

Lemma table_value_solid (t : table) : hollow (table_value t) = false.
Proof.
  unfold table_value. cbn [hollow forallb fst snd String.eqb Ascii.eqb Bool.eqb
                            is_blank orb andb].
  now rewrite andb_false_r.
Qed.

Lemma sequence_object_solid st name alt :
  hollow (sequence_object st name alt) = false.
Proof.
  unfold sequence_object. cbn [hollow forallb fst snd String.eqb Ascii.eqb Bool.eqb
                               is_blank orb andb].
  now rewrite andb_false_r.
Qed.

Lemma effect_solid st rawLine st' :
  consistent st -> effect st rawLine st' ->
  Forall solid (jsonResult st) -> Forall solid (jsonResult st').
Proof.
  intros [_ Hc _ _] Heff Hall.
  destruct Heff as [ |line m _ _ _|name _|name _|Hst _|f c _ _ _
                   |line name column comment r _ _ _|line name _ _];
    cbn [jsonResult set_schemaName push_result open_table close_table
         set_heap warn]; try exact Hall.
  - apply List.Forall_app. split; [exact Hall|].
    constructor; [apply sequence_object_solid | constructor].
  - apply List.Forall_app. split; [exact Hall|].
    destruct (currentTable st); [|now destruct (Hc Hst)].
    repeat constructor.
Qed.

Lemma run_solid (ddlLines : list string) (st : pstate) :
  run initial ddlLines = inr st -> Forall solid (jsonResult st).
Proof.
  apply (run_preserves (fun s => Forall solid (jsonResult s)));
    eauto using consistent_initial, effect_solid, processLine_effect.
Qed.

Lemma entry_value_solid (st : pstate) (e : entry) :
  consistent st -> In e (jsonResult st) -> solid e ->
  hollow (entry_value (heap st) e) = false.
Proof.
  intros [_ _ _ Hr] Hin Hs. destruct e as [v|ref]; [exact Hs|].
  cbn [entry_value].
  destruct (lookup_lt_is_Some_2 (heap st) ref (Hr ref Hin)) as [t ->].
  apply table_value_solid.
Qed.

Lemma filter_all_kept {A : Type} (f : A -> bool) (l : list A) :
  (forall x, In x l -> f x = true) -> List.filter f l = l.
Proof.
  induction l as [|x l IH]; intros H; [reflexivity|]. simpl.
  rewrite (H x (or_introl eq_refl)), IH; [reflexivity|].
  intros y Hy. apply H. now right.
Qed.

(** X18: compaction never removes a whole record: [parseDDL] returns the
    absence marker when the result list is empty, and otherwise a list with
    one record for each sequence and each closed table, in the order of the
    result list, each the compaction of its object. *)
Theorem parseDDL_keeps_every_record (ddlContent : string) (st : pstate) :
  parse_state ddlContent = inr st ->
  parseDDL ddlContent =
  inr (match jsonResult st with
       | [] => JUndefined
       | _ => JArr (map (fun e => compress (entry_value (heap st) e)) (jsonResult st))
       end).
Proof.
  intros H. unfold parseDDL. rewrite H. f_equal. unfold result_value.
  unfold parse_state in H.
  pose proof (run_consistent _ _ _ consistent_initial H) as Hc.
  pose proof (run_solid _ _ H) as Hs.
  rewrite compress_array_eq.
  assert (Hkeep : forall v, In v (map (entry_value (heap st)) (jsonResult st)) ->
                            negb (hollow v) = true).
  { intros v (e & <- & Hin)%in_map_iff. rewrite List.Forall_forall in Hs.
    now rewrite (entry_value_solid st e Hc Hin (Hs e Hin)). }
  rewrite (filter_all_kept _ _ Hkeep), map_map.
  destruct (jsonResult st) as [|e l] eqn:E; [reflexivity|].
  cbn [map forallb].
  assert (He : hollow (entry_value (heap st) e) = false).
  { apply negb_true_iff, Hkeep. now left. }
  now rewrite He.
Qed.

Lemma parseDDL_keeps_every_record_witness :
  parseDDL (lines ["CREATE TABLE s.t ("; ");"]) =
  inr (match jsonResult (close_table table_opened) with
       | [] => JUndefined
       | _ => JArr (map (fun e => compress (entry_value (heap (close_table table_opened)) e))
                        (jsonResult (close_table table_opened)))
       end).
Proof.
  apply parseDDL_keeps_every_record. vm_compute. reflexivity.
Defined.

(* ================================================================== *)
(** ** Properties of the parser: storing a comment *)
(* ================================================================== *)

Lemma property_of_update_eq (o : comments_object) (key : string) (v : option string) :
  has_property o key = true -> property_of (update_property o key v) key = Some v.
Proof.
  unfold property_of. induction o as [|[k w] o IH]; [discriminate|].
  cbn [has_property update_property]. destruct (String.eqb k key) eqn:E; simpl.
  - intros _. now rewrite E.
  - intros H. rewrite E. auto.
Qed.

Lemma property_of_update_ne (o : comments_object) (key key' : string) (v : option string) :
  key' <> key -> property_of (update_property o key v) key' = property_of o key'.
Proof.
  intros Hne. unfold property_of. induction o as [|[k w] o IH]; [reflexivity|].
  cbn [update_property]. destruct (String.eqb k key) eqn:E; simpl.
  - apply String.eqb_eq in E. subst k.
    destruct (String.eqb key key') eqn:E'; [|reflexivity].
    apply String.eqb_eq in E'. congruence.
  - destruct (String.eqb k key'); [reflexivity | exact IH].
Qed.

Lemma property_of_add_eq (o : comments_object) (key : string) (v : option string) :
  has_property o key = false -> property_of (add_property o key v) key = Some v.
Proof.
  unfold property_of. induction o as [|[k w] o IH]; cbn [has_property add_property].
  - intros _. simpl. now rewrite String.eqb_refl.
  - intros [E H]%orb_false_iff.
    destruct (array_index key) as [n|]; [destruct (array_index k) as [m|];
      [destruct (n <? m)%N|]|]; simpl;
      rewrite ?String.eqb_refl, ?E; auto.
Qed.

Lemma property_of_add_ne (o : comments_object) (key key' : string) (v : option string) :
  key' <> key -> property_of (add_property o key v) key' = property_of o key'.
Proof.
  intros Hne. assert (E : String.eqb key key' = false)
    by (apply String.eqb_neq; congruence).
  unfold property_of. induction o as [|[k w] o IH]; cbn [add_property].
  - simpl. now rewrite E.
  - destruct (array_index key) as [n|]; [destruct (array_index k) as [m|];
      [destruct (n <? m)%N|]|]; simpl; rewrite ?E;
      try reflexivity; destruct (String.eqb k key'); auto.
Qed.

Lemma set_comment_read (o : comments_object) (key : string) (v : option string) :
  key <> "__proto__" ->
  property_of (set_comment o key v) key = Some v
  /\ forall key', key' <> key ->
       property_of (set_comment o key v) key' = property_of o key'.
Proof.
  intros Hne. unfold set_comment.
  assert (E : String.eqb key "__proto__" = false) by now apply String.eqb_neq.
  rewrite E. destruct (has_property o key) eqn:Hh; split;
    auto using property_of_update_eq, property_of_update_ne,
      property_of_add_eq, property_of_add_ne.
Qed.

(** X19: a comment whose table the lookup resolves is stored in that table
    under the column name, unless the column is named [__proto__]: reading
    the column back gives the comment, and an earlier comment on the same
    column is replaced; the comments of the other columns, the rest of the
    table, the other tables and the diagnostics stay as they are. *)
Theorem comment_stored_under_column
        (st : pstate) (tableName column comment : option string)
        (ref : nat) (t : table) :
  get_lookup (tableLookup st) (heap st) (to_key tableName) = LTable ref ->
  heap st !! ref = Some t -> to_key column <> "__proto__" ->
  exists st' t',
    attach_comment st tableName column (inr comment) = inr st'
    /\ heap st' !! ref = Some t' /\ same_body t t'
    /\ property_of (t_comments t') (to_key column) = Some comment
    /\ (forall key, key <> to_key column ->
          property_of (t_comments t') key = property_of (t_comments t) key)
    /\ (forall r, r <> ref -> heap st' !! r = heap st !! r)
    /\ warnings st' = warnings st /\ jsonResult st' = jsonResult st.
Proof.
  intros Hl Ht Hne.
  destruct (set_comment_read (t_comments t) (to_key column) comment Hne) as [Hr Ho].
  unfold attach_comment. rewrite Hl.
  exists (set_heap st (alter (put_comment (to_key column) comment) ref (heap st))),
         (put_comment (to_key column) comment t).
  cbn [heap warnings jsonResult set_heap].
  rewrite list_lookup_alter_eq, Ht.
  repeat split; try assumption.
  intros r Hr'. now apply list_lookup_alter_ne.
Qed.

Lemma comment_stored_under_column_witness :
  exists st' t',
    attach_comment (close_table table_opened) (Some "t") (Some "c") (inr (Some "x"))
    = inr st'
    /\ heap st' !! 0 = Some t'
    /\ same_body (Table (Some "") (Some "t") [] [] [] [] None) t'
    /\ property_of (t_comments t') (to_key (Some "c")) = Some (Some "x")
    /\ (forall key, key <> to_key (Some "c") ->
          property_of (t_comments t') key
          = property_of (t_comments (Table (Some "") (Some "t") [] [] [] [] None)) key)
    /\ (forall r, r <> 0 -> heap st' !! r = heap (close_table table_opened) !! r)
    /\ warnings st' = warnings (close_table table_opened)
    /\ jsonResult st' = jsonResult (close_table table_opened).
Proof.
  apply (comment_stored_under_column (close_table table_opened)
           (Some "t") (Some "c") (Some "x") 0
           (Table (Some "") (Some "t") [] [] [] [] None)).
  - vm_compute. reflexivity.
  - reflexivity.
  - discriminate.
Defined.
